(** * LAB4: single-leader replicated key-value store

    Shallow embedding of [LAB4/follower.py] and [LAB4/leader.py]:
    the versioned in-memory stores, the follower's [/replicate] handler,
    the leader's quorum loop over the completed replication futures and
    the leader's [/write] and [/read] handlers.

    Python integers are unbounded, so versions and counters are [Z].
    A request body is a record of optional fields: [data.get(name)]
    returns [None] both when the field is absent and when it is JSON
    null, which is the only distinction the handlers look at.  The
    simulated network delay ([MIN_DELAY], [MAX_DELAY], [time.sleep]) and
    the log lines have no influence on any returned value or stored
    entry and are left out. *)

From Stdlib Require Import ZArith Lia List Sorted.
From stdpp Require Import base option list gmap strings.

Local Open Scope Z_scope.

(** ** Shared data model *)

(** The JSON values that occur in the response bodies. *)
Inductive Json :=
| JStr (s : string)
| JInt (n : Z)
| JBool (b : bool).

(** A Flask response: [jsonify(body), status_code]. *)
Record Response := mkResponse {
  body : list (string * Json);
  status_code : Z
}.

(** [body[name]] of a response, when the field is present. *)
Fixpoint field (name : string) (b : list (string * Json)) : option Json :=
  match b with
  | [] => None
  | (k, v) :: rest => if String.eqb k name then Some v else field name rest
  end.

(** One stored entry, [{"value": value, "version": version_number}]. *)
Record Entry := mkEntry {
  value : string;
  version : Z
}.

#[global] Instance Json_eq_dec : EqDecision Json.
Proof. solve_decision. Defined.

#[global] Instance Entry_eq_dec : EqDecision Entry.
Proof. solve_decision. Defined.

(** The response of [/data]: [jsonify(data_store.copy()), 200].  The body
    is the JSON object with one member per stored key, each an object
    with the members [value] and [version]. *)
Record DataResponse := mkData {
  data_body : gmap string Entry;
  data_status : Z
}.

(** What a client's [requests.get] or [requests.post] does: it returns
    the node's response or raises. *)
Inductive Reply (A : Type) :=
| Answer (response : A)
| Failure.

Arguments Answer {A} response.
Arguments Failure {A}.

(** ** follower.py *)

Module Follower.

(** The JSON body of [POST /replicate]. *)
Record ReplicateRequest := mkReplicate {
  req_key : option string;
  req_value : option string;
  req_version : option Z
}.

(** [replicate()]: the store before, the request body, the store after
    and the response. *)
Definition replicate (data_store : gmap string Entry) (data : ReplicateRequest)
  : gmap string Entry * Response :=
  match req_key data, req_value data, req_version data with
  | Some key, Some val, Some ver =>
      let existing_data := data_store !! key in
      let higher :=
        match existing_data with
        | None => true
        | Some existing => ver >? existing.(version)
        end in
      if higher then
        (<[key := mkEntry val ver]> data_store,
         mkResponse [("status", JStr "success"); ("updated", JBool true)]%string 200)
      else
        (data_store,
         mkResponse [("status", JStr "success"); ("updated", JBool false);
                     ("reason", JStr "stale_version")]%string 200)
  | _, _, _ =>
      (data_store,
       mkResponse [("error", JStr "key, value, and version are required")]%string 400)
  end.

(** The condition of the [if] in [replicate()]:
    [existing_data is None or version > existing_data["version"]]. *)
Definition newer (data_store : gmap string Entry) (key : string) (ver : Z) : Prop :=
  data_store !! key = None
  ∨ ∃ existing, data_store !! key = Some existing ∧ existing.(version) < ver.

(** [read()]: [key] is the query parameter, [None] when it is absent. *)
Definition read (data_store : gmap string Entry) (key : option string) : Response :=
  match key with
  | None => mkResponse [("error", JStr "key parameter is required")]%string 400
  | Some key =>
      match data_store !! key with
      | None => mkResponse [("error", JStr "key not found")]%string 404
      | Some data =>
          mkResponse [("key", JStr key); ("value", JStr data.(value));
                      ("version", JInt data.(version))]%string 200
      end
  end.

(** The handler run on a sequence of requests in arrival order; the
    store is the only thing that survives a request. *)
Definition deliver (data_store : gmap string Entry) (reqs : list ReplicateRequest)
  : gmap string Entry :=
  fold_left (fun st r => fst (replicate st r)) reqs data_store.

(** [replicate(key, val, ver)] with all three fields present is among
    the requests. *)
Definition delivered (key val : string) (ver : Z) (reqs : list ReplicateRequest)
  : Prop :=
  mkReplicate (Some key) (Some val) (Some ver) ∈ reqs.

(** [get_all_data()]. *)
Definition get_all_data (data_store : gmap string Entry) : DataResponse :=
  mkData data_store 200.

(** [health()]; [FOLLOWER_ID] is read from the environment at start-up. *)
Definition health (FOLLOWER_ID : string) : Response :=
  mkResponse [("status", JStr "healthy"); ("role", JStr "follower");
              ("id", JStr FOLLOWER_ID)]%string 200.

End Follower.

(** ** leader.py *)

Module Leader.

(** The configuration read at start-up that the write path looks at. *)
Record Config := mkConfig {
  WRITE_QUORUM : Z;
  FOLLOWERS : list string
}.

(** [int(os.getenv('WRITE_QUORUM', 3))] with the variable unset, and the
    five follower URLs of the list comprehension. *)
Definition default_config : Config :=
  mkConfig 3
    ["http://follower1:5000"; "http://follower2:5000"; "http://follower3:5000";
     "http://follower4:5000"; "http://follower5:5000"]%string.

(** The follower behind one URL, as the leader sees it: whether
    [requests.post] gets an answer at all, and the follower's store. *)
Record FollowerNode := mkNode {
  reachable : bool;
  node_store : gmap string Entry
}.

(** What [requests.post(...)] does: it returns a response or raises. *)
Inductive PostResult :=
| Responded (response : Response)
| RequestException.

(** [requests.post(f"{follower_url}/replicate", json=..., timeout=5)]:
    a reachable follower runs its handler on the body. *)
Definition post (node : FollowerNode) (json : Follower.ReplicateRequest)
  : FollowerNode * PostResult :=
  if node.(reachable) then
    let '(st, response) := Follower.replicate node.(node_store) json in
    (mkNode true st, Responded response)
  else (node, RequestException).

(** [replicate_to_follower(follower_url, key, value, version)]. *)
Definition replicate_to_follower (node : FollowerNode) (key val : string) (ver : Z)
  : FollowerNode * bool :=
  let '(node', r) :=
    post node (Follower.mkReplicate (Some key) (Some val) (Some ver)) in
  (node',
   match r with
   | Responded response => response.(status_code) =? 200
   | RequestException => false
   end).

(** What [future.result()] does for one completed future: it returns
    what [replicate_to_follower] returned, or raises what it raised (the
    [time.sleep] call is outside its [try]). *)
Inductive FutureResult :=
| Returned (ok : bool)
| Raised.

(** The body of [for future in as_completed(future_to_follower)] and the
    [return] after the loop.  [completed] lists the futures in the order
    [as_completed] yields them.  The result is the returned boolean with
    the futures the loop had not taken from the iterator when it
    returned. *)
Fixpoint as_completed_loop (WRITE_QUORUM total_followers : Z)
    (successful_replications failed_replications : Z)
    (completed : list FutureResult) : bool * list FutureResult :=
  match completed with
  | [] => (successful_replications >=? WRITE_QUORUM, [])
  | future :: pending =>
      let counted :=
        match future with
        | Returned true =>
            let successful_replications := successful_replications + 1 in
            if successful_replications >=? WRITE_QUORUM then inl true
            else inr (successful_replications, failed_replications)
        | Returned false | Raised =>
            inr (successful_replications, failed_replications + 1)
        end in
      match counted with
      | inl early => (early, pending)
      | inr (successful_replications, failed_replications) =>
          let remaining :=
            total_followers - (successful_replications + failed_replications) in
          if successful_replications + remaining <? WRITE_QUORUM then (false, pending)
          else as_completed_loop WRITE_QUORUM total_followers
                 successful_replications failed_replications pending
      end
  end.

(** [replicate_to_followers(key, value, version)], given the results of
    the submitted futures in completion order. *)
Definition quorum_wait (cfg : Config) (completed : list FutureResult)
  : bool * list FutureResult :=
  as_completed_loop cfg.(WRITE_QUORUM) (Z.of_nat (length cfg.(FOLLOWERS))) 0 0 completed.

Definition replicate_to_followers (cfg : Config) (completed : list FutureResult) : bool :=
  fst (quorum_wait cfg completed).

(** The futures whose results [replicate_to_followers] never asked for. *)
Definition not_awaited (cfg : Config) (completed : list FutureResult)
  : list FutureResult :=
  snd (quorum_wait cfg completed).

(** The leader's module-level state. *)
Record State := mkState {
  data_store : gmap string Entry;
  version_counter : Z
}.

Definition initial : State := mkState ∅ 0.

(** The JSON body of [POST /write]. *)
Record WriteRequest := mkWrite {
  req_key : option string;
  req_value : option string
}.

(** [with version_lock: version_counter += 1; current_version = version_counter]. *)
Definition with_version_lock (st : State) : State * Z :=
  let version_counter := st.(version_counter) + 1 in
  (mkState st.(data_store) version_counter, version_counter).

(** [with store_lock: data_store[key] = {"value": value, "version": current_version}]. *)
Definition with_store_lock (st : State) (key val : string) (current_version : Z) : State :=
  mkState (<[key := mkEntry val current_version]> st.(data_store)) st.(version_counter).

(** The two [return jsonify(...)] at the end of [write()]. *)
Definition write_response (key val : string) (current_version : Z) (quorum : bool)
  : Response :=
  if quorum then
    mkResponse [("status", JStr "success"); ("key", JStr key); ("value", JStr val);
                ("version", JInt current_version)]%string 200
  else
    mkResponse [("status", JStr "partial_success"); ("key", JStr key);
                ("value", JStr val); ("version", JInt current_version);
                ("warning", JStr "Write quorum not met")]%string 200.

Definition write_rejected : Response :=
  mkResponse [("error", JStr "key and value are required")]%string 400.

(** [write()] run from its first line to its [return] with no other
    request in between; [completed] is what the replication futures of
    this write return, in completion order. *)
Definition write (cfg : Config) (st : State) (data : WriteRequest)
    (completed : list FutureResult) : State * Response :=
  match data.(req_key), data.(req_value) with
  | Some key, Some val =>
      let '(st, current_version) := with_version_lock st in
      let st := with_store_lock st key val current_version in
      (st, write_response key val current_version (replicate_to_followers cfg completed))
  | _, _ => (st, write_rejected)
  end.

(** [read()], the same code as on a follower. *)
Definition read (st : State) (key : option string) : Response :=
  Follower.read st.(data_store) key.

(** Write requests served one after the other, each from its first line
    to its [return] before the next starts; the responses in order. *)
Fixpoint serve (cfg : Config) (st : State)
    (requests : list (WriteRequest * list FutureResult)) : list Response :=
  match requests with
  | [] => []
  | (data, completed) :: rest =>
      let '(st, response) := write cfg st data completed in
      response :: serve cfg st rest
  end.

(** [response.json().get('version')], as the clients read it. *)
Definition version_of (response : Response) : option Z :=
  match field "version" response.(body) with
  | Some (JInt v) => Some v
  | _ => None
  end.

(** No stored version is ahead of the counter. *)
Definition counter_covers_store (st : State) : Prop :=
  ∀ key e, st.(data_store) !! key = Some e → e.(version) ≤ st.(version_counter).

(** [get_all_data()]. *)
Definition get_all_data (st : State) : DataResponse :=
  mkData st.(data_store) 200.

(** [health()]. *)
Definition health : Response :=
  mkResponse [("status", JStr "healthy"); ("role", JStr "leader")]%string 200.

(** The body [json={"key": key, "value": value, "version": version}] that
    [write()] hands, through [replicate_to_followers], to the replication
    attempt of every follower; nothing is posted for a rejected request. *)
Definition posts (st : State) (data : WriteRequest) : option Follower.ReplicateRequest :=
  match data.(req_key), data.(req_value) with
  | Some key, Some val =>
      Some (Follower.mkReplicate (Some key) (Some val) (Some (snd (with_version_lock st))))
  | _, _ => None
  end.

(** Write requests served one after the other: the state at the end and
    the replication bodies posted on the way, in posting order. *)
Fixpoint serve_posting (cfg : Config) (st : State)
    (requests : list (WriteRequest * list FutureResult))
  : State * list Follower.ReplicateRequest :=
  match requests with
  | [] => (st, [])
  | (data, completed) :: rest =>
      let '(final, posted) := serve_posting cfg (fst (write cfg st data completed)) rest in
      (final, option_list (posts st data) ++ posted)
  end.

End Leader.

(** ** Requests in flight on the leader

    The leader serves requests on threads ([threaded=True]).  A [/write]
    handler takes [version_lock], releases it, and only then takes
    [store_lock]; another handler can run between the two blocks and
    after the second.  A handler is therefore modelled by the point it
    has reached, and the process by the shared state and its handlers;
    a schedule names the handler that runs its next block. *)

Module Threads.
Import Leader.

Inductive Handler :=
| AtEntry (data : WriteRequest) (completed : list FutureResult)
| AfterVersionLock (key val : string) (current_version : Z)
    (completed : list FutureResult)
| AfterStoreLock (key val : string) (current_version : Z)
    (completed : list FutureResult)
| Finished (response : Response).

(** The next block of one handler, run on the shared state. *)
Definition handler_step (cfg : Config) (st : State) (h : Handler) : State * Handler :=
  match h with
  | AtEntry data completed =>
      match data.(req_key), data.(req_value) with
      | Some key, Some val =>
          let '(st, current_version) := with_version_lock st in
          (st, AfterVersionLock key val current_version completed)
      | _, _ => (st, Finished write_rejected)
      end
  | AfterVersionLock key val current_version completed =>
      (with_store_lock st key val current_version,
       AfterStoreLock key val current_version completed)
  | AfterStoreLock key val current_version completed =>
      (st, Finished (write_response key val current_version
                       (replicate_to_followers cfg completed)))
  | Finished response => (st, h)
  end.

(** The version that the next block of a handler draws from the counter,
    when that block is the [version_lock] block. *)
Definition draws (st : State) (h : Handler) : option Z :=
  match h with
  | AtEntry data _ =>
      match data.(req_key), data.(req_value) with
      | Some _, Some _ => Some (snd (with_version_lock st))
      | _, _ => None
      end
  | _ => None
  end.

Record Process := mkProcess {
  shared : State;
  handlers : list Handler
}.

(** Handler [i] runs its next block; a name that is not a handler's does
    nothing. *)
Definition step (cfg : Config) (p : Process) (i : nat) : Process :=
  match p.(handlers) !! i with
  | Some h =>
      let '(st, h') := handler_step cfg p.(shared) h in
      mkProcess st (<[i := h']> p.(handlers))
  | None => p
  end.

Definition run (cfg : Config) (p : Process) (schedule : list nat) : Process :=
  fold_left (step cfg) schedule p.

(** The versions drawn along a schedule, in the order they are drawn. *)
Fixpoint versions_assigned (cfg : Config) (p : Process) (schedule : list nat)
  : list Z :=
  match schedule with
  | [] => []
  | i :: rest =>
      match p.(handlers) !! i ≫= draws p.(shared) with
      | Some v => v :: versions_assigned cfg (step cfg p i) rest
      | None => versions_assigned cfg (step cfg p i) rest
      end
  end.

(** A handler still carries the key and value of the request it serves. *)
Definition serves (h : Handler) (data : WriteRequest) : Prop :=
  match h with
  | AtEntry d _ => d = data
  | AfterVersionLock k x _ _ | AfterStoreLock k x _ _ =>
      data.(req_key) = Some k ∧ data.(req_value) = Some x
  | Finished _ => True
  end.

(** Handler [i] serves request [i], and every stored value is the value
    some request carries for that key. *)
Definition tied_to (requests : list (WriteRequest * list FutureResult))
    (p : Process) : Prop :=
  (∀ i h, p.(handlers) !! i = Some h →
     ∃ data completed, requests !! i = Some (data, completed) ∧ serves h data)
  ∧ ∀ key e, p.(shared).(data_store) !! key = Some e →
      ∃ i data completed,
        requests !! i = Some (data, completed)
        ∧ data.(req_key) = Some key ∧ data.(req_value) = Some e.(value).

End Threads.

(** ** The leader with its followers

    One write seen from end to end: the leader's two blocks, then one
    replication attempt per follower.  Every attempt runs to completion
    ([executor.shutdown(wait=False)] does not cancel), so every follower
    is updated; [arrival] lists the follower positions in the order their
    futures complete, and only that order decides what the quorum loop
    sees. *)

Module Cluster.
Import Leader.

Record Cluster := mkCluster {
  leader : State;
  followers : list FollowerNode
}.

Definition fan_out (followers : list FollowerNode) (key val : string) (ver : Z)
  : list (FollowerNode * bool) :=
  map (fun node => replicate_to_follower node key val ver) followers.

Definition completion (attempts : list (FollowerNode * bool)) (arrival : list nat)
  : list FutureResult :=
  omap (fun i => (fun a => Returned (snd a)) <$> attempts !! i) arrival.

Definition write (cfg : Config) (c : Cluster) (data : WriteRequest)
    (arrival : list nat) : Cluster * Response :=
  match data.(req_key), data.(req_value) with
  | Some key, Some val =>
      let '(st, current_version) := with_version_lock c.(leader) in
      let st := with_store_lock st key val current_version in
      let attempts := fan_out c.(followers) key val current_version in
      (mkCluster st (map fst attempts),
       write_response key val current_version
         (replicate_to_followers cfg (completion attempts arrival)))
  | _, _ => (c, write_rejected)
  end.

End Cluster.

(** ** Counting outcomes *)

(** Whether the loop counts a completed future as a success:
    [future.result()] returned a true value. *)
Definition acknowledged (r : Leader.FutureResult) : bool :=
  match r with
  | Leader.Returned true => true
  | _ => false
  end.

Fixpoint successes (completed : list Leader.FutureResult) : Z :=
  match completed with
  | [] => 0
  | r :: rest => (if acknowledged r then 1 else 0) + successes rest
  end.

Fixpoint failures (completed : list Leader.FutureResult) : Z :=
  match completed with
  | [] => 0
  | r :: rest => (if acknowledged r then 0 else 1) + failures rest
  end.

(** ** example_usage.py *)

Module Example.


(** [write_data(key, value)], given what the [POST /write] does. *)
Definition write_data (reply : Reply Response) : bool :=
  match reply with
  | Answer response => response.(status_code) =? 200
  | Failure => false
  end.

(** What [read_data] returns: the value, [None], or a string that starts
    with [Error:]. *)
Inductive ReadData :=
| Value (v : Json)
| NoValue
| ErrorText.

(** [read_data(url, key)], given what the [GET /read] does.  A body
    without [value] makes [response.json()["value"]] raise, which the
    [except] turns into the error string. *)
Definition read_data (reply : Reply Response) : ReadData :=
  match reply with
  | Answer response =>
      if response.(status_code) =? 200 then
        match field "value" response.(body) with
        | Some v => Value v
        | None => ErrorText
        end
      else if response.(status_code) =? 404 then NoValue
      else ErrorText
  | Failure => ErrorText
  end.

(** [get_all_data(url)], given what the [GET /data] does. *)
Definition get_all_data (reply : Reply DataResponse) : gmap string Entry :=
  match reply with
  | Answer response =>
      if response.(data_status) =? 200 then response.(data_body) else ∅
  | Failure => ∅
  end.

End Example.

(** ** test_race_condition.py *)

Module RaceTest.

(** [follower_data['value'] == leader_data['value'] and
    follower_data['version'] == leader_data['version']]; [None] when a
    subscript raises [KeyError]. *)
Definition is_consistent (leader_data follower_data : list (string * Json))
  : option bool :=
  fv ← field "value" follower_data;
  lv ← field "value" leader_data;
  if decide (fv = lv) then
    fn ← field "version" follower_data;
    ln ← field "version" leader_data;
    Some (bool_decide (fn = ln))
  else Some false.

(** The loop over [FOLLOWER_URLS] in [concurrent_write_test()].  The
    line printed for a follower that answered 200 subscripts its
    [value] and [version]. *)
Fixpoint check_followers (leader_data : list (string * Json))
    (responses : list Response) (all_consistent : bool) : option bool :=
  match responses with
  | [] => Some all_consistent
  | response :: rest =>
      if response.(status_code) =? 200 then
        match is_consistent leader_data response.(body),
              field "version" response.(body) with
        | Some true, Some _ => check_followers leader_data rest all_consistent
        | Some false, Some _ => check_followers leader_data rest false
        | _, _ => None
        end
      else check_followers leader_data rest false
  end.

(** The consistency check of [concurrent_write_test()], from the read on
    the leader to the returned [all_consistent], given the responses of
    the [/read] requests; [None] when it raises.  The line printed for
    the leader subscripts its [value] and [version]. *)
Definition consistency_check (leader_response : Response)
    (follower_responses : list Response) : option bool :=
  if leader_response.(status_code) =? 200 then
    match field "value" leader_response.(body),
          field "version" leader_response.(body) with
    | Some _, Some _ =>
        check_followers leader_response.(body) follower_responses true
    | _, _ => None
    end
  else Some false.

End RaceTest.

(** ** performance_analysis.py *)

Module Analysis.

(** One element of the list [check_data_consistency()] returns, without
    [consistency_percent], which is a float. *)
Record Consistency := mkConsistency {
  follower_id : nat;
  total_keys : nat;
  common_keys : nat;
  missing_keys : nat;
  extra_keys : nat;
  value_mismatches : nat
}.

(** The body of the loop of [check_data_consistency()] for follower
    number [i] of the enumeration. *)
Definition compare (leader_data : gmap string Entry) (i : nat)
    (follower_data : gmap string Entry) : Consistency :=
  let common_keys : gset string := dom leader_data ∩ dom follower_data in
  let missing_keys : gset string := dom leader_data ∖ dom follower_data in
  let extra_keys : gset string := dom follower_data ∖ dom leader_data in
  let value_mismatches :=
    length (filter (λ key : string, leader_data !! key ≠ follower_data !! key)
              (elements common_keys)) in
  mkConsistency (i + 1)%nat (size follower_data) (size common_keys)
    (size missing_keys) (size extra_keys) value_mismatches.

(** [check_data_consistency()], given the bodies of the [/data]
    responses of the leader and of the followers. *)
Definition check_data_consistency (leader_data : gmap string Entry)
    (followers_data : list (gmap string Entry)) : list Consistency :=
  imap (compare leader_data) followers_data.

End Analysis.

(** * Properties *)

(** ** The quorum loop *)

Section QuorumLoop.
Import Leader.

Variables WRITE_QUORUM total_followers : Z.

Lemma successes_nonneg completed : 0 ≤ successes completed.
Proof. induction completed as [|r rest IH]; simpl; [lia | destruct (acknowledged r); lia]. Qed.

Lemma failures_nonneg completed : 0 ≤ failures completed.
Proof. induction completed as [|r rest IH]; simpl; [lia | destruct (acknowledged r); lia]. Qed.

Lemma successes_failures completed :
  successes completed + failures completed = Z.of_nat (length completed).
Proof.
  induction completed as [|r rest IH]; [reflexivity|].
  cbn [successes failures length]. destruct (acknowledged r); lia.
Qed.

Lemma successes_app xs ys : successes (xs ++ ys) = successes xs + successes ys.
Proof. induction xs as [|r rest IH]; simpl; [lia | destruct (acknowledged r); lia]. Qed.

(** One pass of the loop body, by the kind of result. *)
Lemma loop_success s f pending :
  as_completed_loop WRITE_QUORUM total_followers s f (Returned true :: pending) =
  if s + 1 >=? WRITE_QUORUM then (true, pending)
  else if s + 1 + (total_followers - (s + 1 + f)) <? WRITE_QUORUM then (false, pending)
  else as_completed_loop WRITE_QUORUM total_followers (s + 1) f pending.
Proof. simpl. destruct (s + 1 >=? WRITE_QUORUM); reflexivity. Qed.

Lemma loop_failure s f r pending :
  acknowledged r = false →
  as_completed_loop WRITE_QUORUM total_followers s f (r :: pending) =
  if s + (total_followers - (s + (f + 1))) <? WRITE_QUORUM then (false, pending)
  else as_completed_loop WRITE_QUORUM total_followers s (f + 1) pending.
Proof. destruct r as [[|]|]; [discriminate | reflexivity | reflexivity]. Qed.

Lemma acknowledged_true r : acknowledged r = true → r = Returned true.
Proof. destruct r as [[|]|]; [reflexivity | discriminate | discriminate]. Qed.

(** As long as no more futures complete than there are followers, the
    loop answers whether the successes reach the quorum. *)
Lemma loop_decision completed : ∀ s f,
  s + f + Z.of_nat (length completed) ≤ total_followers →
  fst (as_completed_loop WRITE_QUORUM total_followers s f completed)
  = (WRITE_QUORUM <=? s + successes completed).
Proof.
  induction completed as [|r pending IH]; intros s f Hlen.
  - simpl. rewrite Z.add_0_r. apply Z.geb_leb.
  - cbn [length] in Hlen. cbn [successes].
    pose proof (successes_nonneg pending) as Hs.
    pose proof (successes_failures pending) as Hsf.
    pose proof (failures_nonneg pending) as Hf.
    destruct (acknowledged r) eqn:Hr.
    + apply acknowledged_true in Hr as ->. rewrite loop_success.
      destruct (Z.geb_spec (s + 1) WRITE_QUORUM).
      { simpl. symmetry. apply Z.leb_le. lia. }
      destruct (Z.ltb_spec (s + 1 + (total_followers - (s + 1 + f))) WRITE_QUORUM).
      { simpl. symmetry. apply Z.leb_gt. lia. }
      rewrite IH by lia. f_equal; lia.
    + rewrite (loop_failure _ _ _ _ Hr).
      destruct (Z.ltb_spec (s + (total_followers - (s + (f + 1)))) WRITE_QUORUM).
      { simpl. symmetry. apply Z.leb_gt. lia. }
      rewrite IH by lia. f_equal; lia.
Qed.

(** Once the failures seen rule the quorum out, the loop has answered
    [False] and left the rest of the iterator alone. *)
Lemma loop_early_failure observed : ∀ s f outstanding,
  observed ≠ [] →
  s + f + Z.of_nat (length observed) ≤ total_followers →
  total_followers - (f + failures observed) < WRITE_QUORUM →
  ∃ skipped,
    as_completed_loop WRITE_QUORUM total_followers s f (observed ++ outstanding)
    = (false, skipped ++ outstanding).
Proof.
  induction observed as [|r rest IH]; intros s f outstanding Hne Hlen Hcut; [done|].
  cbn [length] in Hlen. cbn [failures] in Hcut.
  pose proof (successes_nonneg rest) as Hs.
  pose proof (successes_failures rest) as Hsf.
  pose proof (failures_nonneg rest) as Hf.
  assert (Hrest : rest = [] ∨ rest ≠ []) by (destruct rest; [left | right]; done).
  rewrite <- app_comm_cons.
  destruct (acknowledged r) eqn:Hr.
  - apply acknowledged_true in Hr as ->. rewrite loop_success.
    destruct (Z.geb_spec (s + 1) WRITE_QUORUM); [lia|].
    destruct (Z.ltb_spec (s + 1 + (total_followers - (s + 1 + f))) WRITE_QUORUM).
    { by exists rest. }
    destruct Hrest as [-> | Hrest]; [simpl in Hcut; lia|].
    apply IH; [done | lia | lia].
  - rewrite (loop_failure _ _ _ _ Hr).
    destruct (Z.ltb_spec (s + (total_followers - (s + (f + 1)))) WRITE_QUORUM).
    { by exists rest. }
    destruct Hrest as [-> | Hrest]; [simpl in Hcut; lia|].
    apply IH; [done | lia | lia].
Qed.

End QuorumLoop.

(** ** The leader's write path *)

Section WritePath.
Import Leader.

Lemma quorum_decision cfg completed :
  length completed = length cfg.(FOLLOWERS) →
  replicate_to_followers cfg completed
  = (cfg.(WRITE_QUORUM) <=? successes completed).
Proof.
  intros Hlen. unfold replicate_to_followers, quorum_wait.
  rewrite loop_decision by lia. reflexivity.
Qed.

Lemma write_accepted cfg st key val completed :
  write cfg st (mkWrite (Some key) (Some val)) completed
  = (mkState (<[key := mkEntry val (st.(version_counter) + 1)]> st.(data_store))
       (st.(version_counter) + 1),
     write_response key val (st.(version_counter) + 1)
       (replicate_to_followers cfg completed)).
Proof. reflexivity. Qed.

Lemma write_response_status key val ver quorum :
  field "status" (body (write_response key val ver quorum))
  = Some (JStr (if quorum then "success" else "partial_success")).
Proof. destruct quorum; reflexivity. Qed.

Lemma write_response_version key val ver quorum :
  field "version" (body (write_response key val ver quorum)) = Some (JInt ver)
  ∧ status_code (write_response key val ver quorum) = 200.
Proof. destruct quorum; split; reflexivity. Qed.

End WritePath.

(** C1. A write with key and value present reports status [success]
    exactly when at least [WRITE_QUORUM] of the replication attempts, one
    per follower and taken in any completion order, returned success;
    otherwise it reports [partial_success]. *)
Theorem write_success_iff_quorum
    (cfg : Leader.Config) (st : Leader.State) (key val : string)
    (completed : list Leader.FutureResult) :
  length completed = length cfg.(Leader.FOLLOWERS) →
  let response := snd (Leader.write cfg st (Leader.mkWrite (Some key) (Some val)) completed) in
  (field "status" (body response) = Some (JStr "success")
     ↔ cfg.(Leader.WRITE_QUORUM) ≤ successes completed)
  ∧ (field "status" (body response) = Some (JStr "partial_success")
     ↔ successes completed < cfg.(Leader.WRITE_QUORUM))
  ∧ field "version" (body response) = Some (JInt (st.(Leader.version_counter) + 1)).
Proof.
  intros Hlen response. subst response.
  rewrite write_accepted. cbn [snd].
  rewrite write_response_status, (quorum_decision _ _ Hlen).
  split; [|split].
  - destruct (Z.leb_spec cfg.(Leader.WRITE_QUORUM) (successes completed));
      split; (done || lia).
  - destruct (Z.leb_spec cfg.(Leader.WRITE_QUORUM) (successes completed));
      split; (done || lia).
  - apply write_response_version.
Qed.

(** With five followers and a quorum of three, three successes among the
    five attempts, whichever they are, give [success]. *)
Lemma write_success_iff_quorum_witness :
  field "status"
    (body (snd (Leader.write Leader.default_config Leader.initial
                  (Leader.mkWrite (Some "k") (Some "v"))
                  [Leader.Returned false; Leader.Returned true; Leader.Raised;
                   Leader.Returned true; Leader.Returned true])))
  = Some (JStr "success").
Proof.
  apply (write_success_iff_quorum Leader.default_config Leader.initial "k" "v"
           [Leader.Returned false; Leader.Returned true; Leader.Raised;
            Leader.Returned true; Leader.Returned true]).
  - reflexivity.
  - vm_compute. discriminate.
Defined.

(** C4. When fewer than [WRITE_QUORUM] attempts succeed, a write with key
    and value present answers 200 with status [partial_success] and the
    version it drew; the leader keeps the entry and the counter, and a
    read of the key on the resulting state returns that value and
    version. *)
Theorem quorum_failure_keeps_local_write
    (cfg : Leader.Config) (st : Leader.State) (key val : string)
    (completed : list Leader.FutureResult) :
  length completed = length cfg.(Leader.FOLLOWERS) →
  successes completed < cfg.(Leader.WRITE_QUORUM) →
  let current_version := st.(Leader.version_counter) + 1 in
  let '(st', response) :=
    Leader.write cfg st (Leader.mkWrite (Some key) (Some val)) completed in
  status_code response = 200
  ∧ field "status" (body response) = Some (JStr "partial_success")
  ∧ field "version" (body response) = Some (JInt current_version)
  ∧ st'.(Leader.data_store) !! key = Some (mkEntry val current_version)
  ∧ st'.(Leader.version_counter) = current_version
  ∧ Leader.read st' (Some key)
    = mkResponse [("key", JStr key); ("value", JStr val);
                  ("version", JInt current_version)]%string 200.
Proof.
  intros Hlen Hfew current_version. rewrite write_accepted.
  rewrite (quorum_decision _ _ Hlen).
  destruct (Z.leb_spec cfg.(Leader.WRITE_QUORUM) (successes completed)); [lia|].
  assert (Hget : (<[key := mkEntry val current_version]> st.(Leader.data_store)) !! key
                 = Some (mkEntry val current_version)) by apply lookup_insert_eq.
  repeat split; try done.
  unfold Leader.read, Follower.read. cbn [Leader.data_store].
  fold current_version. rewrite Hget. reflexivity.
Qed.

(** Five followers, a quorum of three, two successes and three failures. *)
Lemma quorum_failure_keeps_local_write_witness :
  let '(st', response) :=
    Leader.write Leader.default_config Leader.initial
      (Leader.mkWrite (Some "k") (Some "v"))
      [Leader.Returned true; Leader.Returned false; Leader.Returned true;
       Leader.Returned false; Leader.Returned false] in
  status_code response = 200
  ∧ field "status" (body response) = Some (JStr "partial_success")
  ∧ field "version" (body response) = Some (JInt 1)
  ∧ st'.(Leader.data_store) !! "k" = Some (mkEntry "v" 1)
  ∧ st'.(Leader.version_counter) = 1
  ∧ Leader.read st' (Some "k")
    = mkResponse [("key", JStr "k"); ("value", JStr "v");
                  ("version", JInt 1)]%string 200.
Proof.
  apply (quorum_failure_keeps_local_write Leader.default_config Leader.initial
           "k" "v"
           [Leader.Returned true; Leader.Returned false; Leader.Returned true;
            Leader.Returned false; Leader.Returned false]).
  - reflexivity.
  - vm_compute. reflexivity.
Defined.

(** C6. After any number (at least one) of observed results, if the
    successes so far plus the attempts still pending cannot reach
    [WRITE_QUORUM], [replicate_to_followers] has returned [False] and the
    results of the attempts not yet observed were never taken from the
    iterator. *)
Theorem early_failure_short_circuit
    (cfg : Leader.Config) (observed outstanding : list Leader.FutureResult) :
  observed ≠ [] →
  length (observed ++ outstanding) = length cfg.(Leader.FOLLOWERS) →
  let F := Z.of_nat (length cfg.(Leader.FOLLOWERS)) in
  successes observed + (F - successes observed - failures observed)
    < cfg.(Leader.WRITE_QUORUM) →
  Leader.replicate_to_followers cfg (observed ++ outstanding) = false
  ∧ outstanding `suffix_of` Leader.not_awaited cfg (observed ++ outstanding).
Proof.
  intros Hne Hlen F Hcut.
  rewrite length_app in Hlen.
  destruct (loop_early_failure cfg.(Leader.WRITE_QUORUM) F observed 0 0 outstanding)
    as [skipped Hloop]; [done | lia | lia |].
  unfold Leader.replicate_to_followers, Leader.not_awaited, Leader.quorum_wait.
  fold F. rewrite Hloop. split; [reflexivity | by exists skipped].
Qed.

(** Five followers and a quorum of four: one success and two failures
    decide [False] while two attempts, here both successful, are still
    outstanding. *)
Lemma early_failure_short_circuit_witness :
  let cfg := Leader.mkConfig 4 Leader.default_config.(Leader.FOLLOWERS) in
  let completed :=
    [Leader.Returned false; Leader.Returned true; Leader.Returned false]
    ++ [Leader.Returned true; Leader.Returned true] in
  Leader.replicate_to_followers cfg completed = false
  ∧ [Leader.Returned true; Leader.Returned true]
      `suffix_of` Leader.not_awaited cfg completed.
Proof.
  apply (early_failure_short_circuit
           (Leader.mkConfig 4 Leader.default_config.(Leader.FOLLOWERS))
           [Leader.Returned false; Leader.Returned true; Leader.Returned false]
           [Leader.Returned true; Leader.Returned true]).
  - discriminate.
  - reflexivity.
  - vm_compute. reflexivity.
Defined.

(** C10. Nothing keeps [WRITE_QUORUM] between 1 and the number of
    followers.  Above the number of followers, [replicate_to_followers]
    returns [False] whatever the attempts return, and a write with key
    and value present reports [partial_success]; at zero or below it
    returns [True] whatever they return, and the write reports
    [success]. *)
Theorem quorum_outside_range
    (cfg : Leader.Config) (st : Leader.State) (key val : string)
    (completed : list Leader.FutureResult) :
  length completed = length cfg.(Leader.FOLLOWERS) →
  let response :=
    snd (Leader.write cfg st (Leader.mkWrite (Some key) (Some val)) completed) in
  (Z.of_nat (length cfg.(Leader.FOLLOWERS)) < cfg.(Leader.WRITE_QUORUM) →
     Leader.replicate_to_followers cfg completed = false
     ∧ field "status" (body response) = Some (JStr "partial_success"))
  ∧ (cfg.(Leader.WRITE_QUORUM) ≤ 0 →
     Leader.replicate_to_followers cfg completed = true
     ∧ field "status" (body response) = Some (JStr "success")).
Proof.
  intros Hlen response. subst response.
  rewrite write_accepted. cbn [snd].
  rewrite write_response_status, (quorum_decision _ _ Hlen).
  pose proof (successes_nonneg completed) as Hs.
  pose proof (successes_failures completed) as Hsf.
  pose proof (failures_nonneg completed) as Hf.
  split; intros HQ;
    destruct (Z.leb_spec cfg.(Leader.WRITE_QUORUM) (successes completed));
    (done || lia).
Qed.

(** A quorum of six over five followers that all acknowledge, and a
    quorum of zero over five followers that all fail. *)
Lemma quorum_outside_range_witness :
  Leader.replicate_to_followers (Leader.mkConfig 6 Leader.default_config.(Leader.FOLLOWERS))
    (repeat (Leader.Returned true) 5) = false
  ∧ Leader.replicate_to_followers (Leader.mkConfig 0 Leader.default_config.(Leader.FOLLOWERS))
    (repeat (Leader.Returned false) 5) = true.
Proof.
  split.
  - apply (quorum_outside_range
             (Leader.mkConfig 6 Leader.default_config.(Leader.FOLLOWERS))
             Leader.initial "k" "v" (repeat (Leader.Returned true) 5));
      [reflexivity | vm_compute; reflexivity].
  - apply (quorum_outside_range
             (Leader.mkConfig 0 Leader.default_config.(Leader.FOLLOWERS))
             Leader.initial "k" "v" (repeat (Leader.Returned false) 5));
      [reflexivity | vm_compute; discriminate].
Defined.

(** ** The follower's replicate handler *)

Section FollowerStore.
Import Follower.

Implicit Types (st : gmap string Entry) (reqs : list ReplicateRequest).

Lemma replicate_newer st key val ver :
  newer st key ver →
  replicate st (mkReplicate (Some key) (Some val) (Some ver))
  = (<[key := mkEntry val ver]> st,
     mkResponse [("status", JStr "success"); ("updated", JBool true)]%string 200).
Proof.
  intros [Hnone | (existing & Hsome & Hlt)]; unfold replicate; cbn.
  - by rewrite Hnone.
  - rewrite Hsome. by destruct (Z.gtb_spec ver existing.(version)); [|lia].
Qed.

Lemma replicate_stale st key val ver existing :
  st !! key = Some existing → ver ≤ existing.(version) →
  replicate st (mkReplicate (Some key) (Some val) (Some ver))
  = (st,
     mkResponse [("status", JStr "success"); ("updated", JBool false);
                 ("reason", JStr "stale_version")]%string 200).
Proof.
  intros Hsome Hle. unfold replicate; cbn. rewrite Hsome.
  by destruct (Z.gtb_spec ver existing.(version)); [lia|].
Qed.

Lemma newer_or_stale st key ver :
  newer st key ver ∨ ∃ existing, st !! key = Some existing ∧ ver ≤ existing.(version).
Proof.
  unfold newer. destruct (st !! key) as [existing|]; [|by left; left].
  destruct (Z_lt_le_dec existing.(version) ver); [left; right | right]; eauto.
Qed.

Lemma replicate_incomplete st data :
  data.(req_key) = None ∨ data.(req_value) = None ∨ data.(req_version) = None →
  replicate st data
  = (st, mkResponse [("error", JStr "key, value, and version are required")]%string 400).
Proof.
  destruct data as [[k|] [v|] [n|]]; cbn; intros [H | [H | H]];
    first [discriminate H | reflexivity].
Qed.

Lemma deliver_snoc st reqs r :
  deliver st (reqs ++ [r]) = fst (replicate (deliver st reqs) r).
Proof. unfold deliver. by rewrite fold_left_app. Qed.

(** A request never lowers, and never removes, what is stored. *)
Lemma replicate_never_lowers st data key existing :
  st !! key = Some existing →
  ∃ e, fst (replicate st data) !! key = Some e ∧ existing.(version) ≤ e.(version).
Proof.
  intros Hsome.
  destruct data as [[k|] [v|] [n|]];
    try (rewrite replicate_incomplete by (cbn; auto); exists existing; split; [done | lia]).
  destruct (newer_or_stale st k n) as [Hnew | (e0 & He0 & Hle)].
  - rewrite (replicate_newer _ _ _ _ Hnew). cbn [fst].
    destruct (decide (k = key)) as [-> | Hne].
    + rewrite lookup_insert_eq. eexists; split; [done|]. cbn.
      destruct Hnew as [Hnone | (e1 & He1 & Hlt)]; [congruence|].
      assert (e1 = existing) by congruence. subst. lia.
    + rewrite lookup_insert_ne by done. exists existing. split; [done | lia].
  - rewrite (replicate_stale _ _ _ _ _ He0 Hle). exists existing. split; [done | lia].
Qed.

(** What is stored for a key after a run from the empty store: nothing
    if nothing was delivered for it, else an entry that was delivered
    and whose version no delivery for the key exceeds. *)
Lemma deliver_invariant reqs key :
  match deliver ∅ reqs !! key with
  | None => ∀ val ver, ¬ delivered key val ver reqs
  | Some e =>
      delivered key e.(value) e.(version) reqs
      ∧ ∀ val ver, delivered key val ver reqs → ver ≤ e.(version)
  end.
Proof.
  induction reqs as [|r reqs IH] using rev_ind.
  - cbn. rewrite lookup_empty. intros val ver H. by apply elem_of_nil in H.
  - rewrite deliver_snoc. set (st := deliver ∅ reqs) in *.
    assert (Hsplit : ∀ val ver, delivered key val ver (reqs ++ [r]) ↔
              delivered key val ver reqs ∨ r = mkReplicate (Some key) (Some val) (Some ver)).
    { intros val ver. unfold delivered. rewrite elem_of_app, list_elem_of_singleton.
      split; (intros [H | H]; [left | right]; done). }
    destruct r as [[k|] [v|] [n|]];
      try (rewrite replicate_incomplete by (cbn; auto); cbn [fst];
           destruct (st !! key) as [e|];
           [ destruct IH as [IH1 IH2]; split;
             [ apply Hsplit; by left
             | intros val ver [H | H]%Hsplit; [by eapply IH2 | discriminate H] ]
           | intros val ver [H | H]%Hsplit; [by eapply IH | discriminate H] ]).
    destruct (decide (k = key)) as [-> | Hne].
    + destruct (newer_or_stale st key n) as [Hnew | (e0 & He0 & Hle)].
      * rewrite (replicate_newer _ _ _ _ Hnew). cbn [fst].
        rewrite lookup_insert_eq. cbn [value version]. split.
        { apply Hsplit. by right. }
        intros val ver [H | H]%Hsplit.
        -- destruct Hnew as [Hnone | (e1 & He1 & Hlt)].
           ++ rewrite Hnone in IH. by apply IH in H.
           ++ rewrite He1 in IH. destruct IH as [_ IH2]. apply IH2 in H. lia.
        -- injection H as <- <-. lia.
      * rewrite (replicate_stale _ _ _ _ _ He0 Hle). cbn [fst].
        rewrite He0 in IH |- *. destruct IH as [IH1 IH2]. split.
        { apply Hsplit. by left. }
        intros val ver [H | H]%Hsplit; [by eapply IH2|].
        injection H as <- <-. lia.
    + assert (Hsame : fst (replicate st (mkReplicate (Some k) (Some v) (Some n))) !! key
                      = st !! key).
      { destruct (newer_or_stale st k n) as [Hnew | (e0 & He0 & Hle)].
        - rewrite (replicate_newer _ _ _ _ Hnew). cbn [fst]. by rewrite lookup_insert_ne.
        - by rewrite (replicate_stale _ _ _ _ _ He0 Hle). }
      rewrite Hsame. destruct (st !! key) as [e|].
      * destruct IH as [IH1 IH2]. split; [apply Hsplit; by left|].
        intros val ver [H | H]%Hsplit; [by eapply IH2 | congruence].
      * intros val ver [H | H]%Hsplit; [by eapply IH | congruence].
Qed.

End FollowerStore.

(** C3. A replicate request with key, value and version present
    overwrites the entry exactly when the key has no entry or the
    incoming version is strictly greater than the stored one.  Otherwise,
    ties included, the store is left as it was and the answer is still
    200 with status [success], carrying [updated: false]. *)
Theorem replicate_applies_iff_newer
    (st : gmap string Entry) (key val : string) (ver : Z) :
  let '(st', response) :=
    Follower.replicate st (Follower.mkReplicate (Some key) (Some val) (Some ver)) in
  status_code response = 200
  ∧ field "status" (body response) = Some (JStr "success")
  ∧ field "error" (body response) = None
  ∧ (field "updated" (body response) = Some (JBool true) ↔ Follower.newer st key ver)
  ∧ (Follower.newer st key ver → st' = <[key := mkEntry val ver]> st)
  ∧ (¬ Follower.newer st key ver →
       st' = st ∧ field "updated" (body response) = Some (JBool false)).
Proof.
  destruct (newer_or_stale st key ver) as [Hnew | (existing & Hsome & Hle)].
  - rewrite (replicate_newer _ _ _ _ Hnew). repeat split; done.
  - rewrite (replicate_stale _ _ _ _ _ Hsome Hle).
    assert (Hold : ¬ Follower.newer st key ver).
    { intros [Hnone | (e & He & Hlt)]; [congruence|].
      assert (e = existing) by congruence. subst. lia. }
    repeat split; done.
Qed.

(** A tie: version 4 arrives for a key stored at version 4. *)
Lemma replicate_applies_iff_newer_witness :
  let st : gmap string Entry := {[ "k"%string := mkEntry "old" 4 ]} in
  let '(st', response) :=
    Follower.replicate st (Follower.mkReplicate (Some "k") (Some "new") (Some 4)) in
  st' = st
  ∧ status_code response = 200
  ∧ field "updated" (body response) = Some (JBool false).
Proof.
  intros st.
  pose proof (replicate_applies_iff_newer st "k" "new" 4) as H.
  destruct (Follower.replicate st _) as [st' response].
  destruct H as (Hcode & _ & _ & _ & _ & Hstale).
  destruct Hstale as [Hst Hupd].
  - intros [Hnone | (e & He & Hlt)].
    + subst st. rewrite lookup_singleton_eq in Hnone. discriminate Hnone.
    + subst st. rewrite lookup_singleton_eq in He. injection He as <-. cbn in Hlt. lia.
  - repeat split; done.
Defined.

(** C2. On a follower that starts empty, after any finite sequence of
    replicate requests (any order, repetitions, other keys and rejected
    requests in between), a key for which some request was delivered
    holds an entry that was itself delivered for that key and whose
    version is the greatest ever delivered for it. *)
Theorem follower_converges_to_max
    (reqs : list Follower.ReplicateRequest) (key : string) :
  (∃ val ver, Follower.delivered key val ver reqs) →
  ∃ e, Follower.deliver ∅ reqs !! key = Some e
       ∧ Follower.delivered key e.(value) e.(version) reqs
       ∧ ∀ val ver, Follower.delivered key val ver reqs → ver ≤ e.(version).
Proof.
  intros (val & ver & Hd).
  pose proof (deliver_invariant reqs key) as Hinv.
  destruct (Follower.deliver ∅ reqs !! key) as [e|].
  - exists e. by destruct Hinv.
  - by apply Hinv in Hd.
Qed.

(** Versions 5, 3, 7, 2 delivered in that order for one key, the third
    delivered once more at the end: version 7 and its value stay. *)
Lemma follower_converges_to_max_witness :
  let reqs :=
    [Follower.mkReplicate (Some "k") (Some "five") (Some 5);
     Follower.mkReplicate (Some "k") (Some "three") (Some 3);
     Follower.mkReplicate (Some "k") (Some "seven") (Some 7);
     Follower.mkReplicate (Some "k") (Some "two") (Some 2);
     Follower.mkReplicate (Some "k") (Some "seven") (Some 7)]%string in
  Follower.deliver ∅ reqs !! "k"%string = Some (mkEntry "seven" 7)
  ∧ ∃ e, Follower.deliver ∅ reqs !! "k"%string = Some e
         ∧ Follower.delivered "k" e.(value) e.(version) reqs
         ∧ ∀ val ver, Follower.delivered "k" val ver reqs → ver ≤ e.(version).
Proof.
  intros reqs. split; [vm_compute; reflexivity|].
  apply (follower_converges_to_max reqs "k").
  exists "five"%string, 5. unfold Follower.delivered, reqs. apply list_elem_of_here.
Defined.

(** C8. A write without key or without value is answered 400 at once:
    the leader's store and version counter are what they were, and no
    follower is contacted.  A replicate request without key, value or
    version is answered 400 and the follower's store is what it was. *)
Theorem missing_fields_rejected_without_effect :
  (∀ cfg st data completed,
     data.(Leader.req_key) = None ∨ data.(Leader.req_value) = None →
     Leader.write cfg st data completed = (st, Leader.write_rejected))
  ∧ (∀ cfg c data arrival,
     data.(Leader.req_key) = None ∨ data.(Leader.req_value) = None →
     Cluster.write cfg c data arrival = (c, Leader.write_rejected))
  ∧ (∀ cfg st data completed,
     data.(Leader.req_key) = None ∨ data.(Leader.req_value) = None →
     Threads.handler_step cfg st (Threads.AtEntry data completed)
     = (st, Threads.Finished Leader.write_rejected))
  ∧ status_code Leader.write_rejected = 400
  ∧ (∀ st data,
     data.(Follower.req_key) = None ∨ data.(Follower.req_value) = None
       ∨ data.(Follower.req_version) = None →
     ∃ response, Follower.replicate st data = (st, response)
                 ∧ status_code response = 400
                 ∧ field "error" (body response)
                   = Some (JStr "key, value, and version are required")).
Proof.
  repeat split.
  - intros cfg st [[k|] [v|]] completed [H | H]; first [discriminate H | reflexivity].
  - intros cfg c [[k|] [v|]] arrival [H | H]; first [discriminate H | reflexivity].
  - intros cfg st [[k|] [v|]] completed [H | H]; first [discriminate H | reflexivity].
  - intros st data H. rewrite (replicate_incomplete _ _ H). eexists; repeat split.
Qed.

(** A write whose value is null on a leader that has already served
    writes, and a replicate request whose version is null. *)
Lemma missing_fields_rejected_without_effect_witness :
  let st := Leader.mkState {[ "k"%string := mkEntry "v" 3 ]} 3 in
  Leader.write Leader.default_config st (Leader.mkWrite (Some "k") None)
    (repeat (Leader.Returned true) 5)
  = (st, Leader.write_rejected)
  ∧ ∃ response,
      Follower.replicate {[ "k"%string := mkEntry "v" 3 ]}
        (Follower.mkReplicate (Some "k") (Some "w") None)
      = ({[ "k"%string := mkEntry "v" 3 ]}, response)
      ∧ status_code response = 400
      ∧ field "error" (body response)
        = Some (JStr "key, value, and version are required").
Proof.
  intros st.
  destruct missing_fields_rejected_without_effect as (Hw & _ & _ & _ & Hr).
  split.
  - apply Hw. right. reflexivity.
  - apply Hr. right. right. reflexivity.
Defined.

(** ** The version counter *)

Section VersionCounter.
Import Leader Threads.

Lemma draws_next st h v : draws st h = Some v → v = st.(version_counter) + 1.
Proof.
  destruct h as [[[k|] [x|]] completed| | |]; cbn; intros H;
    first [discriminate H | by injection H as <-].
Qed.

(** [draws] names the version that the handler's next block binds to
    [current_version]. *)
Lemma draws_handler_step cfg st h v :
  draws st h = Some v ↔
  ∃ key val completed,
    handler_step cfg st h
    = (mkState st.(data_store) v, AfterVersionLock key val v completed)
    ∧ v = st.(version_counter) + 1.
Proof.
  split.
  - destruct h as [[[k|] [x|]] completed| | |]; cbn; intros H;
      try discriminate H.
    injection H as <-. by exists k, x, completed.
  - intros (key & val & completed & Hstep & ->).
    destruct h as [[[k|] [x|]] completed'| | |]; cbn in *; congruence.
Qed.

Lemma step_counter cfg p i :
  (shared (step cfg p i)).(version_counter) =
  match p.(handlers) !! i ≫= draws p.(shared) with
  | Some v => v
  | None => p.(shared).(version_counter)
  end.
Proof.
  unfold step. destruct (handlers p !! i) as [h|]; [|reflexivity]. cbn [mbind option_bind].
  destruct h as [[[k|] [x|]] completed| | |]; reflexivity.
Qed.

Lemma versions_assigned_above cfg schedule : ∀ p,
  Forall (λ v, p.(shared).(version_counter) < v) (versions_assigned cfg p schedule)
  ∧ StronglySorted Z.lt (versions_assigned cfg p schedule).
Proof.
  induction schedule as [|i rest IH]; intros p; cbn [versions_assigned].
  - split; constructor.
  - destruct (IH (step cfg p i)) as [Habove Hsorted].
    rewrite step_counter in Habove.
    destruct (handlers p !! i ≫= draws (shared p)) as [v|] eqn:Hdraw.
    + assert (v = p.(shared).(version_counter) + 1) as Hv.
      { destruct (handlers p !! i) as [h|]; [|discriminate Hdraw].
        by apply draws_next in Hdraw. }
      split.
      * constructor; [lia|]. eapply Forall_impl; [exact Habove|]. cbn. intros; lia.
      * by constructor.
    + by split.
Qed.

Lemma serve_versions_above cfg requests : ∀ st,
  Forall (λ v, st.(version_counter) < v) (omap version_of (serve cfg st requests))
  ∧ StronglySorted Z.lt (omap version_of (serve cfg st requests)).
Proof.
  induction requests as [|[data completed] rest IH]; intros st; cbn [serve].
  - split; constructor.
  - destruct data as [[k|] [x|]];
      try (change (write cfg st _ completed) with (st, write_rejected);
           cbn [omap list_omap]; change (version_of write_rejected) with (@None Z);
           cbn; apply IH).
    rewrite write_accepted. cbn [omap list_omap].
    assert (Hv : version_of (write_response k x (version_counter st + 1)
                               (replicate_to_followers cfg completed))
                 = Some (version_counter st + 1)).
    { unfold version_of. by rewrite (proj1 (write_response_version _ _ _ _)). }
    rewrite Hv.
    match goal with |- context [serve cfg ?s rest] =>
      destruct (IH s) as [Habove Hsorted] end.
    cbn [version_counter] in Habove. split.
    + constructor; [lia|]. eapply Forall_impl; [exact Habove|]. cbn. intros; lia.
    + by constructor.
Qed.

End VersionCounter.

(** C5. The versions the counter hands out are strictly increasing in the
    order they are handed out, whatever the keys and however the handlers
    of concurrent requests are scheduled; and the versions returned by
    writes served one after the other are strictly increasing (requests
    rejected for a missing field draw no version). *)
Theorem versions_strictly_increasing :
  (∀ cfg p schedule,
     StronglySorted Z.lt (Threads.versions_assigned cfg p schedule)
     ∧ Forall (λ v, p.(Threads.shared).(Leader.version_counter) < v)
         (Threads.versions_assigned cfg p schedule))
  ∧ (∀ cfg st requests,
     StronglySorted Z.lt (omap Leader.version_of (Leader.serve cfg st requests))
     ∧ Forall (λ v, st.(Leader.version_counter) < v)
         (omap Leader.version_of (Leader.serve cfg st requests))).
Proof.
  split; intros.
  - split; apply versions_assigned_above.
  - split; apply serve_versions_above.
Qed.

(** Three requests, the second without a value: the third handler draws
    first, the rejected one draws nothing. *)
Example versions_assigned_three_handlers :
  Threads.versions_assigned Leader.default_config
    (Threads.mkProcess Leader.initial
       [Threads.AtEntry (Leader.mkWrite (Some "a") (Some "x")) [];
        Threads.AtEntry (Leader.mkWrite (Some "b") None) [];
        Threads.AtEntry (Leader.mkWrite (Some "c") (Some "y")) []])
    [2; 1; 0; 2; 0]%nat
  = [1; 2].
Proof. reflexivity. Qed.

Example serve_three_requests :
  omap Leader.version_of
    (Leader.serve Leader.default_config Leader.initial
       [(Leader.mkWrite (Some "a") (Some "x"), repeat (Leader.Returned true) 5);
        (Leader.mkWrite (Some "b") None, repeat (Leader.Returned true) 5);
        (Leader.mkWrite (Some "a") (Some "y"), repeat (Leader.Returned false) 5)])
  = [1; 2].
Proof. reflexivity. Qed.

(** ** Stored versions over time *)

Section StoredVersions.
Import Leader Threads.

(** A handler that runs its three blocks with nothing in between is
    [write]. *)
Lemma write_runs_three_blocks cfg st data completed :
  run cfg (mkProcess st [AtEntry data completed]) [0; 0; 0]%nat
  = let '(st', response) := write cfg st data completed in
    mkProcess st' [Finished response].
Proof. destruct data as [[k|] [x|]]; reflexivity. Qed.

(** Served alone on a state whose counter covers the store, a write
    lowers no stored version and keeps the counter covering the store. *)
Lemma write_alone_never_lowers cfg st data completed :
  counter_covers_store st →
  counter_covers_store (fst (write cfg st data completed))
  ∧ ∀ key existing,
      st.(data_store) !! key = Some existing →
      ∃ e, (fst (write cfg st data completed)).(data_store) !! key = Some e
           ∧ existing.(version) ≤ e.(version).
Proof.
  intros Hcov. destruct data as [[k|] [x|]];
    try (split; [exact Hcov | intros key existing H; exists existing; split; [done | lia]]).
  rewrite write_accepted. cbn [fst data_store version_counter]. split.
  - intros key e. cbn [data_store version_counter].
    destruct (decide (k = key)) as [-> | Hne].
    + rewrite lookup_insert_eq. intros [= <-]. cbn. lia.
    + rewrite lookup_insert_ne by done. intros H%Hcov. lia.
  - intros key existing H. destruct (decide (k = key)) as [-> | Hne].
    + rewrite lookup_insert_eq. eexists; split; [done|]. cbn. apply Hcov in H. lia.
    + rewrite lookup_insert_ne by done. exists existing. split; [done | lia].
Qed.

End StoredVersions.

(** C7, on the leader with two requests in flight.  Two writes to one
    key draw versions 1 and 2; the second runs its [store_lock] block
    first, the first one after it: the stored version of the key goes
    from 2 down to 1, while both responses carry their own version. *)
Theorem interleaved_writes_lower_stored_version :
  let acks := repeat (Leader.Returned true) 5 in
  let p0 :=
    Threads.mkProcess Leader.initial
      [Threads.AtEntry (Leader.mkWrite (Some "k") (Some "a")) acks;
       Threads.AtEntry (Leader.mkWrite (Some "k") (Some "b")) acks] in
  let before := Threads.run Leader.default_config p0 [0; 1; 1]%nat in
  let after := Threads.step Leader.default_config before 0%nat in
  before.(Threads.shared).(Leader.data_store) !! "k"%string = Some (mkEntry "b" 2)
  ∧ after.(Threads.shared).(Leader.data_store) !! "k"%string = Some (mkEntry "a" 1)
  ∧ Threads.versions_assigned Leader.default_config p0 [0; 1; 1; 0; 0; 1]%nat = [1; 2]
  ∧ Leader.read (Threads.run Leader.default_config p0 [0; 1; 1; 0; 0; 1]%nat).(Threads.shared)
      (Some "k"%string)
    = mkResponse [("key", JStr "k"); ("value", JStr "a"); ("version", JInt 1)]%string 200.
Proof. vm_compute. repeat split. Qed.

(** ** Acknowledgements and applications *)

(** C9. An attempt counts as a success exactly when [requests.post]
    returned a response with status code 200.  A reachable follower that
    holds the key at the same or a higher version answers 200 with
    [updated: false] and keeps its store, and the attempt counts.  So a
    write can report [success] with fewer than [WRITE_QUORUM] followers
    holding it: below, three followers answer, one of them stale, two are
    unreachable, the quorum is three and the status is [success]. *)
Theorem quorum_counts_acknowledgements :
  (∀ node key val ver,
     snd (Leader.replicate_to_follower node key val ver) = true ↔
     ∃ response,
       snd (Leader.post node (Follower.mkReplicate (Some key) (Some val) (Some ver)))
       = Leader.Responded response
       ∧ status_code response = 200)
  ∧ (∀ node key val ver existing,
     node.(Leader.reachable) = true →
     node.(Leader.node_store) !! key = Some existing →
     ver ≤ existing.(version) →
     Leader.replicate_to_follower node key val ver = (node, true)
     ∧ ∃ response,
         Leader.post node (Follower.mkReplicate (Some key) (Some val) (Some ver))
         = (node, Leader.Responded response)
         ∧ field "updated" (body response) = Some (JBool false))
  ∧ (let stale := Leader.mkNode true {[ "k"%string := mkEntry "later" 9 ]} in
     let fresh := Leader.mkNode true ∅ in
     let down := Leader.mkNode false ∅ in
     let applied := Leader.mkNode true {[ "k"%string := mkEntry "x" 1 ]} in
     Cluster.write Leader.default_config
       (Cluster.mkCluster Leader.initial [stale; fresh; down; fresh; down])
       (Leader.mkWrite (Some "k") (Some "x")) [3; 0; 2; 1; 4]%nat
     = (Cluster.mkCluster (Leader.mkState {[ "k"%string := mkEntry "x" 1 ]} 1)
          [stale; applied; down; applied; down],
        Leader.write_response "k" "x" 1 true)).
Proof.
  split; [|split].
  - intros node key val ver. unfold Leader.replicate_to_follower.
    destruct (Leader.post node _) as [node' [response|]]; cbn [snd]; split.
    + intros H%Z.eqb_eq. by exists response.
    + intros (r & [= <-] & Hcode). by apply Z.eqb_eq.
    + discriminate.
    + intros (r & H & _). discriminate H.
  - intros [r st] key val ver existing Hr Hsome Hle. cbn in Hr, Hsome. subst r.
    unfold Leader.replicate_to_follower, Leader.post. cbn [Leader.reachable Leader.node_store].
    rewrite (replicate_stale _ _ _ _ _ Hsome Hle). split; [reflexivity|].
    eexists; split; reflexivity.
  - vm_compute. reflexivity.
Qed.

(** A follower that holds the key at version 9 acknowledges version 1
    and stays as it is. *)
Lemma quorum_counts_acknowledgements_witness :
  let stale := Leader.mkNode true {[ "k"%string := mkEntry "later" 9 ]} in
  Leader.replicate_to_follower stale "k" "x" 1 = (stale, true).
Proof.
  intros stale.
  destruct quorum_counts_acknowledgements as (_ & Hstale & _).
  apply (Hstale stale "k"%string "x"%string 1 (mkEntry "later" 9)).
  - reflexivity.
  - apply lookup_singleton_eq.
  - vm_compute. discriminate.
Defined.

(** ** The write seen from the followers *)

Section ClusterWrite.
Import Leader Cluster.

Lemma successes_Permutation xs ys : xs ≡ₚ ys → successes xs = successes ys.
Proof.
  induction 1 as [|r xs ys _ IH|r r' xs|xs ys zs _ IH1 _ IH2]; cbn [successes];
    [reflexivity | lia | lia | lia].
Qed.

Lemma completion_in_order attempts :
  completion attempts (seq 0 (length attempts))
  = map (λ a, Returned (snd a)) attempts.
Proof.
  unfold completion.
  induction attempts as [|a rest IH] using rev_ind; [reflexivity|].
  rewrite length_app, Nat.add_1_r, seq_S, omap_app, map_app. cbn [seq].
  assert (Hpre : omap (λ i, (λ a0, Returned (snd a0)) <$> (rest ++ [a]) !! i)
                   (seq 0 (length rest))
                 = omap (λ i, (λ a0, Returned (snd a0)) <$> rest !! i)
                   (seq 0 (length rest))).
  { apply list_omap_ext, Forall_Forall2_diag, Forall_forall.
    intros i Hi%list_elem_of_In%in_seq. by rewrite lookup_app_l by lia. }
  rewrite Hpre, IH. cbn. rewrite list_lookup_middle by done. reflexivity.
Qed.

(** X12. Whichever followers acknowledge and in whatever order the attempts
    complete, the status is [success] exactly when the acknowledging
    followers number at least [WRITE_QUORUM]. *)
Lemma cluster_write_success_iff cfg c key val arrival :
  length c.(followers) = length cfg.(FOLLOWERS) →
  arrival ≡ₚ seq 0 (length c.(followers)) →
  let attempts :=
    fan_out c.(followers) key val (c.(leader).(version_counter) + 1) in
  field "status" (body (snd (Cluster.write cfg c (mkWrite (Some key) (Some val)) arrival)))
    = Some (JStr "success")
  ↔ cfg.(WRITE_QUORUM) ≤ successes (map (λ a, Returned (snd a)) attempts).
Proof.
  intros Hlen Hperm attempts.
  assert (Hn : length attempts = length c.(followers))
    by (unfold attempts, fan_out; apply length_map).
  assert (Hcompl : completion attempts arrival ≡ₚ map (λ a, Returned (snd a)) attempts).
  { rewrite <- completion_in_order, Hn. unfold completion. by rewrite Hperm. }
  unfold Cluster.write. cbn [req_key req_value with_version_lock with_store_lock snd].
  fold attempts. rewrite write_response_status, quorum_decision.
  - rewrite (successes_Permutation _ _ Hcompl).
    destruct (Z.leb_spec cfg.(WRITE_QUORUM)
                (successes (map (λ a, Returned (snd a)) attempts)));
      split; (done || lia).
  - rewrite (Permutation_length Hcompl), length_map. lia.
Qed.

End ClusterWrite.

(** ** A quorum above the number of followers

    With more acknowledgements asked for than there are followers the
    quorum is out of reach before any result; the loop has no check
    before its first result and decides after it. *)
Example quorum_above_followers_waits_for_first :
  Leader.quorum_wait (Leader.mkConfig 6 Leader.default_config.(Leader.FOLLOWERS))
    (repeat (Leader.Returned true) 5)
  = (false, repeat (Leader.Returned true) 4).
Proof. reflexivity. Qed.

(** ** Reads after writes *)

(** X1. On the leader a write with key and value present is answered 200
    whatever the followers do and however the quorum is configured; a
    read of the key on the resulting state returns the written value
    with the version drawn, and a read of any other key returns what it
    returned before. *)
Theorem leader_read_your_writes
    (cfg : Leader.Config) (st : Leader.State) (key val : string)
    (completed : list Leader.FutureResult) :
  let '(st', response) :=
    Leader.write cfg st (Leader.mkWrite (Some key) (Some val)) completed in
  status_code response = 200
  ∧ Leader.read st' (Some key)
    = mkResponse [("key", JStr key); ("value", JStr val);
                  ("version", JInt (st.(Leader.version_counter) + 1))]%string 200
  ∧ ∀ other, other ≠ key →
      Leader.read st' (Some other) = Leader.read st (Some other).
Proof.
  rewrite write_accepted. split; [apply write_response_version|].
  unfold Leader.read, Follower.read. cbn [Leader.data_store]. split.
  - by rewrite lookup_insert_eq.
  - intros other Hne. by rewrite lookup_insert_ne.
Qed.

(** X2. On a follower, a read after a replicate request returns the incoming
    value and version when the request was newer than what was stored,
    and what it returned before otherwise; reads of other keys are not
    affected. *)
Theorem follower_read_after_replicate
    (st : gmap string Entry) (key val : string) (ver : Z) :
  let st' :=
    fst (Follower.replicate st (Follower.mkReplicate (Some key) (Some val) (Some ver))) in
  (Follower.newer st key ver →
     Follower.read st' (Some key)
     = mkResponse [("key", JStr key); ("value", JStr val);
                   ("version", JInt ver)]%string 200)
  ∧ (¬ Follower.newer st key ver →
     Follower.read st' (Some key) = Follower.read st (Some key))
  ∧ (∀ other, other ≠ key →
     Follower.read st' (Some other) = Follower.read st (Some other)).
Proof.
  intros st'. subst st'.
  destruct (newer_or_stale st key ver) as [Hnew | (existing & Hsome & Hle)].
  - rewrite (replicate_newer _ _ _ _ Hnew). cbn [fst]. unfold Follower.read.
    split; [|split].
    + intros _. by rewrite lookup_insert_eq.
    + intros Hold. by destruct Hold.
    + intros other Hne. by rewrite lookup_insert_ne.
  - rewrite (replicate_stale _ _ _ _ _ Hsome Hle). cbn [fst].
    split; [|split]; try done.
    intros [Hnone | (e & He & Hlt)]; [congruence|].
    assert (e = existing) by congruence. subst. lia.
Qed.

(** A first delivery of version 3 for a new key, then read. *)
Lemma follower_read_after_replicate_witness :
  Follower.read
    (fst (Follower.replicate ∅ (Follower.mkReplicate (Some "k") (Some "v") (Some 3))))
    (Some "k"%string)
  = mkResponse [("key", JStr "k"); ("value", JStr "v"); ("version", JInt 3)]%string 200.
Proof.
  apply (follower_read_after_replicate ∅ "k" "v" 3).
  left. apply lookup_empty.
Defined.

(** ** Retransmission and reordering on a follower *)

(** X3. Delivering the same request a second time changes nothing: the store
    after the second delivery is the store after the first, the status
    code is the same, and a request that was well formed is answered
    [updated: false] the second time. *)
Theorem replicate_twice_is_once
    (st : gmap string Entry) (data : Follower.ReplicateRequest) :
  let '(st1, first) := Follower.replicate st data in
  let '(st2, second) := Follower.replicate st1 data in
  st2 = st1
  ∧ status_code second = status_code first
  ∧ (status_code first = 200 → field "updated" (body second) = Some (JBool false)).
Proof.
  destruct data as [[k|] [v|] [n|]];
    try (rewrite !replicate_incomplete by (cbn; auto); repeat split; discriminate).
  destruct (newer_or_stale st k n) as [Hnew | (existing & Hsome & Hle)].
  - rewrite (replicate_newer _ _ _ _ Hnew).
    rewrite (replicate_stale _ k v n (mkEntry v n)); [done | apply lookup_insert_eq | cbn; lia].
  - rewrite (replicate_stale _ _ _ _ _ Hsome Hle).
    rewrite (replicate_stale _ _ _ _ _ Hsome Hle). done.
Qed.

(** X4. Two sequences of deliveries that contain the same requests, in
    whatever order and with whatever repetitions, leave a follower that
    started empty with the same store, provided no version was delivered
    for one key with two different values. *)
Theorem deliver_order_insensitive (reqs reqs' : list Follower.ReplicateRequest) :
  (∀ r, r ∈ reqs ↔ r ∈ reqs') →
  (∀ key v v' n,
     Follower.delivered key v n reqs → Follower.delivered key v' n reqs → v = v') →
  Follower.deliver ∅ reqs = Follower.deliver ∅ reqs'.
Proof.
  intros Hsame Hfun. apply map_eq. intros key.
  pose proof (deliver_invariant reqs key) as H1.
  pose proof (deliver_invariant reqs' key) as H2.
  assert (Hd : ∀ v n, Follower.delivered key v n reqs ↔ Follower.delivered key v n reqs')
    by (intros; apply Hsame).
  destruct (Follower.deliver ∅ reqs !! key) as [e1|],
           (Follower.deliver ∅ reqs' !! key) as [e2|]; try done.
  - destruct H1 as [H1 H1max], H2 as [H2 H2max].
    apply Hd in H2. pose proof (H1max _ _ H2). apply Hd in H1.
    pose proof (H2max _ _ H1). apply Hd in H1.
    assert (Hn : e1.(version) = e2.(version)) by lia.
    destruct e1 as [v1 n1], e2 as [v2 n2]; cbn in *. subst n2.
    f_equal. f_equal. by eapply Hfun.
  - destruct H1 as [H1 _]. apply Hd in H1. by apply H2 in H1.
  - destruct H2 as [H2 _]. apply Hd in H2. by apply H1 in H2.
Qed.

(** Versions 1, 2, 3 of one key delivered in order, and delivered
    backwards with the first one repeated. *)
Lemma deliver_order_insensitive_witness :
  let r n v := Follower.mkReplicate (Some "k"%string) (Some v) (Some n) in
  Follower.deliver ∅ [r 1 "a"; r 2 "b"; r 3 "c"]%string
  = Follower.deliver ∅ [r 3 "c"; r 1 "a"; r 2 "b"; r 1 "a"]%string.
Proof.
  intros r. apply deliver_order_insensitive.
  - intros x. rewrite !elem_of_cons, !elem_of_nil. tauto.
  - intros key v v' n. unfold Follower.delivered.
    rewrite !elem_of_cons, !elem_of_nil. unfold r.
    intros [H | [H | [H | []]]] [H' | [H' | [H' | []]]]; congruence.
Defined.

(** A well-formed request delivered twice to a follower that holds
    nothing for the key. *)
Lemma replicate_twice_is_once_witness :
  let data := Follower.mkReplicate (Some "k"%string) (Some "v"%string) (Some 1) in
  field "updated" (body (snd (Follower.replicate (fst (Follower.replicate ∅ data)) data)))
  = Some (JBool false).
Proof.
  intros data.
  pose proof (replicate_twice_is_once ∅ data) as H.
  destruct (Follower.replicate ∅ data) as [st1 first] eqn:H1.
  cbn [fst]. destruct (Follower.replicate st1 data) as [st2 second].
  destruct H as (_ & _ & H). apply H.
  injection H1 as _ <-. reflexivity.
Defined.

(** ** Followers catch up with the leader *)

Section Convergence.
Import Leader.

Lemma serve_posting_snoc cfg requests : ∀ st data completed,
  serve_posting cfg st (requests ++ [(data, completed)])
  = (fst (write cfg (fst (serve_posting cfg st requests)) data completed),
     snd (serve_posting cfg st requests)
     ++ option_list (posts (fst (serve_posting cfg st requests)) data)).
Proof.
  induction requests as [|[d c] rest IH]; intros st data completed.
  - cbn. by rewrite app_nil_r.
  - cbn [app serve_posting]. rewrite IH.
    destruct (serve_posting cfg (fst (write cfg st d c)) rest) as [st1 posted].
    cbn [fst snd]. by rewrite app_assoc.
Qed.

(** What holds of the leader's store and of the bodies posted so far,
    after any number of writes served in turn on a leader that started
    with an empty store. *)
Lemma serve_posting_invariant cfg st0 requests :
  st0.(data_store) = ∅ →
  let final := fst (serve_posting cfg st0 requests) in
  let posted := snd (serve_posting cfg st0 requests) in
  (∀ r, r ∈ posted →
     ∃ k v n, r = Follower.mkReplicate (Some k) (Some v) (Some n)
              ∧ n ≤ final.(version_counter))
  ∧ (∀ k k' v v' n,
       Follower.delivered k v n posted → Follower.delivered k' v' n posted →
       k = k' ∧ v = v')
  ∧ ∀ key,
      match final.(data_store) !! key with
      | None => ∀ v n, ¬ Follower.delivered key v n posted
      | Some e =>
          Follower.delivered key e.(value) e.(version) posted
          ∧ ∀ v n, Follower.delivered key v n posted → n ≤ e.(version)
      end.
Proof.
  intros Hempty. induction requests as [|[data completed] requests IH] using rev_ind.
  - cbn. rewrite Hempty. split; [|split].
    + intros r H. by apply elem_of_nil in H.
    + intros k k' v v' n H. by apply elem_of_nil in H.
    + intros key. rewrite lookup_empty. intros v n H. by apply elem_of_nil in H.
  - rewrite serve_posting_snoc. cbn [fst snd].
    destruct (serve_posting cfg st0 requests) as [st1 posted]. cbn [fst snd] in *.
    destruct IH as (Hbound & Hunique & Hstore).
    destruct data as [[k0|] [v0|]];
      try (change (write cfg st1 _ completed) with (st1, write_rejected);
           cbn [posts req_key req_value option_list fst]; rewrite app_nil_r; done).
    rewrite write_accepted. cbn [posts req_key req_value option_list fst with_version_lock snd].
    set (c := st1.(version_counter)) in *.
    assert (Hold : ∀ k v n, Follower.delivered k v n posted → n ≤ c).
    { intros k v n (k1 & v1 & n1 & [= -> -> ->] & Hle)%Hbound. done. }
    assert (Hsplit : ∀ k v n,
              Follower.delivered k v n (posted ++ [Follower.mkReplicate (Some k0) (Some v0) (Some (c + 1))])
              ↔ Follower.delivered k v n posted ∨ (k = k0 ∧ v = v0 ∧ n = c + 1)).
    { intros k v n. unfold Follower.delivered.
      rewrite elem_of_app, list_elem_of_singleton. split.
      - intros [H | [= -> -> ->]]; auto.
      - intros [H | (-> & -> & ->)]; auto. }
    split; [|split].
    + intros r [H | ->%list_elem_of_singleton]%elem_of_app.
      * destruct (Hbound r H) as (k & v & n & -> & Hle).
        exists k, v, n. cbn. split; [done | lia].
      * exists k0, v0, (c + 1). cbn. split; [done | lia].
    + intros k k' v v' n [H | (-> & -> & ->)]%Hsplit [H' | (-> & -> & Hn)]%Hsplit.
      * by eapply Hunique.
      * apply Hold in H. lia.
      * apply Hold in H'. lia.
      * done.
    + intros key. cbn [data_store]. destruct (decide (k0 = key)) as [-> | Hne].
      * rewrite lookup_insert_eq. cbn [value version]. split.
        { apply Hsplit. by right. }
        intros v n [H | (_ & _ & ->)]%Hsplit; [apply Hold in H|]; lia.
      * rewrite lookup_insert_ne by done. specialize (Hstore key).
        destruct (st1.(data_store) !! key) as [e|].
        -- destruct Hstore as [H1 H2]. split; [apply Hsplit; by left|].
           intros v n [H | (-> & _)]%Hsplit; [by eapply H2 | done].
        -- intros v n [H | (-> & _)]%Hsplit; [by eapply Hstore | done].
Qed.

End Convergence.

Lemma serve_catch_up
    (cfg : Leader.Config)
    (requests : list (Leader.WriteRequest * list Leader.FutureResult))
    (deliveries : list Follower.ReplicateRequest) :
  (∀ r, r ∈ deliveries ↔ r ∈ snd (Leader.serve_posting cfg Leader.initial requests)) →
  Follower.deliver ∅ deliveries
  = (fst (Leader.serve_posting cfg Leader.initial requests)).(Leader.data_store).
Proof.
  intros Hsame.
  destruct (serve_posting_invariant cfg Leader.initial requests eq_refl)
    as (_ & Hunique & Hstore).
  apply map_eq. intros key. specialize (Hstore key).
  pose proof (deliver_invariant deliveries key) as Hf.
  assert (Hd : ∀ v n, Follower.delivered key v n deliveries
                      ↔ Follower.delivered key v n
                          (snd (Leader.serve_posting cfg Leader.initial requests)))
    by (intros; apply Hsame).
  destruct (Follower.deliver ∅ deliveries !! key) as [e1|],
    ((fst (Leader.serve_posting cfg Leader.initial requests)).(Leader.data_store) !! key)
    as [e2|]; try done.
  - destruct Hf as [H1 H1max], Hstore as [H2 H2max].
    apply Hd in H1. pose proof (H2max _ _ H1).
    pose proof (H1max _ _ (proj2 (Hd _ _) H2)).
    assert (Hn : e1.(version) = e2.(version)) by lia.
    destruct e1 as [v1 n1], e2 as [v2 n2]; cbn in *. subst n2.
    f_equal. f_equal. by eapply Hunique.
  - destruct Hf as [H1 _]. apply Hd in H1. by apply Hstore in H1.
  - destruct Hstore as [H2 _]. apply Hd in H2. by apply Hf in H2.
Qed.

(** X5. When writes are served one after the other on a leader that starts
    empty, a follower that starts empty and has received every posted
    replication body, in any order and any number of times, holds
    exactly the leader's store: the [/data] responses of the two nodes
    are equal. *)
Theorem follower_catches_up_with_leader
    (cfg : Leader.Config)
    (requests : list (Leader.WriteRequest * list Leader.FutureResult))
    (deliveries : list Follower.ReplicateRequest) :
  (∀ r, r ∈ deliveries ↔ r ∈ snd (Leader.serve_posting cfg Leader.initial requests)) →
  Follower.deliver ∅ deliveries
  = (fst (Leader.serve_posting cfg Leader.initial requests)).(Leader.data_store)
  ∧ Follower.get_all_data (Follower.deliver ∅ deliveries)
    = Leader.get_all_data (fst (Leader.serve_posting cfg Leader.initial requests)).
Proof.
  intros Hsame. pose proof (serve_catch_up cfg requests deliveries Hsame) as Heq.
  split; [exact Heq|]. unfold Follower.get_all_data, Leader.get_all_data. by rewrite Heq.
Qed.

(** Three writes, the second rejected, the third to the key of the
    first; the follower receives the two bodies backwards and the first
    one twice. *)
Lemma follower_catches_up_with_leader_witness :
  let requests :=
    [(Leader.mkWrite (Some "k") (Some "a"), repeat (Leader.Returned true) 5);
     (Leader.mkWrite None (Some "b"), repeat (Leader.Returned true) 5);
     (Leader.mkWrite (Some "k") (Some "c"), repeat (Leader.Returned false) 5)]%string in
  let deliveries :=
    [Follower.mkReplicate (Some "k") (Some "c") (Some 2);
     Follower.mkReplicate (Some "k") (Some "a") (Some 1);
     Follower.mkReplicate (Some "k") (Some "c") (Some 2)]%string in
  Follower.deliver ∅ deliveries
  = (fst (Leader.serve_posting Leader.default_config Leader.initial requests)).(Leader.data_store)
  ∧ Follower.get_all_data (Follower.deliver ∅ deliveries)
    = Leader.get_all_data
        (fst (Leader.serve_posting Leader.default_config Leader.initial requests)).
Proof.
  intros requests deliveries.
  apply (follower_catches_up_with_leader Leader.default_config requests deliveries).
  intros r. subst deliveries.
  change (snd (Leader.serve_posting Leader.default_config Leader.initial requests))
    with [Follower.mkReplicate (Some "k") (Some "a") (Some 1);
          Follower.mkReplicate (Some "k") (Some "c") (Some 2)]%string.
  rewrite !elem_of_cons, !elem_of_nil. tauto.
Defined.

(** ** More on the version counter *)

Section CounterUnderSchedules.
Import Leader Threads.

Lemma consecutive_cons (c : Z) (n : nat) :
  (c + 1) :: ((λ i : nat, c + 1 + Z.of_nat i) <$> seq 1 n)
  = (λ i : nat, c + Z.of_nat i) <$> seq 1 (S n).
Proof.
  cbn [seq fmap list_fmap]. f_equal.
  rewrite <- (fmap_S_seq 1 n), <- list_fmap_compose.
  apply list_fmap_ext. intros _ i _. cbn. lia.
Qed.

(** No block of any handler stores a version above the counter. *)
Lemma step_covers cfg p i :
  counter_covers_store p.(shared) →
  Forall (λ h, match h with
               | AfterVersionLock _ _ v _ => v ≤ p.(shared).(version_counter)
               | _ => True
               end) p.(handlers) →
  counter_covers_store (shared (step cfg p i))
  ∧ Forall (λ h, match h with
                 | AfterVersionLock _ _ v _ => v ≤ (shared (step cfg p i)).(version_counter)
                 | _ => True
                 end) (handlers (step cfg p i)).
Proof.
  intros Hcov Hh. unfold step.
  destruct (handlers p !! i) as [h|] eqn:Hi; [|done].
  pose proof (Forall_lookup_1 _ _ _ _ Hh Hi) as Hhi.
  destruct h as [[[k|] [x|]] completed|k x v completed|k x v completed|response];
    cbn [handler_step req_key req_value with_version_lock with_store_lock shared handlers].
  - split.
    + intros key e H. apply Hcov in H. cbn in *. lia.
    + apply Forall_insert; [|cbn; lia].
      eapply Forall_impl; [exact Hh|]. intros [] ?; cbn in *; try done. lia.
  - split; [done|]. by apply Forall_insert.
  - split; [done|]. by apply Forall_insert.
  - split; [done|]. by apply Forall_insert.
  - split.
    + intros key e. unfold with_store_lock. cbn [data_store version_counter].
      destruct (decide (k = key)) as [-> | Hne].
      * rewrite lookup_insert_eq. intros [= <-]. done.
      * rewrite lookup_insert_ne by done. apply Hcov.
    + by apply Forall_insert.
  - split; [done|]. by apply Forall_insert.
  - split; [done|]. by apply Forall_insert.
Qed.

Lemma run_covers cfg schedule : ∀ p,
  counter_covers_store p.(shared) →
  Forall (λ h, match h with
               | AfterVersionLock _ _ v _ => v ≤ p.(shared).(version_counter)
               | _ => True
               end) p.(handlers) →
  counter_covers_store (shared (run cfg p schedule)).
Proof.
  induction schedule as [|i rest IH]; intros p Hcov Hh; [done|].
  change (run cfg p (i :: rest)) with (run cfg (step cfg p i) rest).
  destruct (step_covers cfg p i Hcov Hh). by apply IH.
Qed.

End CounterUnderSchedules.

(** X6. However the handlers of concurrent writes are scheduled, the
    versions drawn are consecutive: the n-th version drawn is the
    counter at the start plus n, with no gap and no repeat, and the
    counter ends at its start value plus the number of versions drawn. *)
Theorem versions_assigned_consecutive
    (cfg : Leader.Config) (p : Threads.Process) (schedule : list nat) :
  Threads.versions_assigned cfg p schedule
  = (λ i : nat, p.(Threads.shared).(Leader.version_counter) + Z.of_nat i)
      <$> seq 1 (length (Threads.versions_assigned cfg p schedule))
  ∧ (Threads.shared (Threads.run cfg p schedule)).(Leader.version_counter)
    = p.(Threads.shared).(Leader.version_counter)
      + Z.of_nat (length (Threads.versions_assigned cfg p schedule)).
Proof.
  revert p. induction schedule as [|i rest IH]; intros p.
  - cbn. split; [done | lia].
  - cbn [Threads.versions_assigned].
    change (Threads.run cfg p (i :: rest))
      with (Threads.run cfg (Threads.step cfg p i) rest).
    destruct (IH (Threads.step cfg p i)) as [Hvs Hc]. rewrite step_counter in Hvs, Hc.
    destruct (Threads.handlers p !! i ≫= Threads.draws (Threads.shared p))
      as [v|] eqn:Hdraw.
    + assert (v = p.(Threads.shared).(Leader.version_counter) + 1) as ->.
      { destruct (Threads.handlers p !! i) as [h|]; [|discriminate Hdraw].
        by apply draws_next in Hdraw. }
      cbn [length]. split.
      * rewrite <- consecutive_cons. by f_equal.
      * lia.
    + by split.
Qed.

(** X7. However the handlers of concurrent writes are scheduled on a leader
    that starts empty, no key is ever stored with a version that the
    counter has not reached. *)
Theorem stored_versions_below_counter
    (cfg : Leader.Config)
    (requests : list (Leader.WriteRequest * list Leader.FutureResult))
    (schedule : list nat) :
  Leader.counter_covers_store
    (Threads.shared
       (Threads.run cfg
          (Threads.mkProcess Leader.initial
             (map (λ r, Threads.AtEntry (fst r) (snd r)) requests))
          schedule)).
Proof.
  apply run_covers.
  - intros key e H. cbn in H. by rewrite lookup_empty in H.
  - cbn [Threads.handlers]. apply Forall_forall. intros h Hin%list_elem_of_In.
    apply in_map_iff in Hin as (r & <- & _). done.
Qed.

(** ** When the quorum loop decides *)

Section DecisionPoint.
Import Leader.

Variables WRITE_QUORUM total_followers : Z.

Lemma failures_app xs ys : failures (xs ++ ys) = failures xs + failures ys.
Proof. induction xs as [|r rest IH]; simpl; [lia | destruct (acknowledged r); lia]. Qed.

Lemma loop_early_success observed : ∀ s f outstanding,
  s < WRITE_QUORUM →
  WRITE_QUORUM ≤ s + successes observed →
  s + f + Z.of_nat (length observed) ≤ total_followers →
  ∃ skipped,
    as_completed_loop WRITE_QUORUM total_followers s f (observed ++ outstanding)
    = (true, skipped ++ outstanding).
Proof.
  induction observed as [|r rest IH]; intros s f outstanding Hlow Hreach Hlen.
  - cbn in Hreach. lia.
  - cbn [length] in Hlen. cbn [successes] in Hreach.
    pose proof (successes_nonneg rest) as Hs.
    pose proof (successes_failures rest) as Hsf.
    pose proof (failures_nonneg rest) as Hf.
    rewrite <- app_comm_cons. destruct (acknowledged r) eqn:Hr.
    + apply acknowledged_true in Hr as ->. rewrite loop_success.
      destruct (Z.geb_spec (s + 1) WRITE_QUORUM); [by exists rest|].
      destruct (Z.ltb_spec (s + 1 + (total_followers - (s + 1 + f))) WRITE_QUORUM); [lia|].
      apply IH; lia.
    + rewrite (loop_failure _ _ _ _ _ _ Hr).
      destruct (Z.ltb_spec (s + (total_followers - (s + (f + 1)))) WRITE_QUORUM); [lia|].
      apply IH; lia.
Qed.

(** The loop splits the completed futures into those it took and those
    it left, and what it took justifies its answer. *)
Lemma loop_decision_point completed : ∀ s f,
  s + f + Z.of_nat (length completed) = total_followers →
  ∃ taken,
    completed
    = taken ++ snd (as_completed_loop WRITE_QUORUM total_followers s f completed)
    ∧ if fst (as_completed_loop WRITE_QUORUM total_followers s f completed)
      then WRITE_QUORUM ≤ s + successes taken
      else total_followers - (f + failures taken) < WRITE_QUORUM.
Proof.
  induction completed as [|r rest IH]; intros s f Hlen.
  - exists []. cbn in *. split; [done|].
    destruct (Z.geb_spec s WRITE_QUORUM); lia.
  - cbn [length] in Hlen. destruct (acknowledged r) eqn:Hr.
    + pose proof Hr as Hr'. apply acknowledged_true in Hr' as ->. rewrite loop_success.
      destruct (Z.geb_spec (s + 1) WRITE_QUORUM).
      { exists [Returned true]. cbn. split; [done | lia]. }
      destruct (Z.ltb_spec (s + 1 + (total_followers - (s + 1 + f))) WRITE_QUORUM).
      { exists [Returned true]. cbn. split; [done | lia]. }
      destruct (IH (s + 1) f) as (taken & Hsplit & Hwhy); [lia|].
      exists (Returned true :: taken). split; [cbn; by f_equal|].
      cbn [successes failures acknowledged].
      destruct (fst (as_completed_loop WRITE_QUORUM total_followers (s + 1) f rest)); lia.
    + rewrite (loop_failure _ _ _ _ _ _ Hr).
      destruct (Z.ltb_spec (s + (total_followers - (s + (f + 1)))) WRITE_QUORUM).
      { exists [r]. cbn [snd fst app successes failures]. rewrite Hr. split; [done | lia]. }
      destruct (IH s (f + 1)) as (taken & Hsplit & Hwhy); [lia|].
      exists (r :: taken). split; [cbn; by f_equal|].
      cbn [successes failures]. rewrite Hr.
      destruct (fst (as_completed_loop WRITE_QUORUM total_followers s (f + 1) rest)); lia.
Qed.

End DecisionPoint.

(** X9. With a quorum of at least one, as soon as the results observed hold
    [WRITE_QUORUM] successes, [replicate_to_followers] has returned
    [True] and the results of the attempts not yet observed were never
    taken from the iterator. *)
Theorem early_success_short_circuit
    (cfg : Leader.Config) (observed outstanding : list Leader.FutureResult) :
  1 ≤ cfg.(Leader.WRITE_QUORUM) →
  cfg.(Leader.WRITE_QUORUM) ≤ successes observed →
  length (observed ++ outstanding) = length cfg.(Leader.FOLLOWERS) →
  Leader.replicate_to_followers cfg (observed ++ outstanding) = true
  ∧ outstanding `suffix_of` Leader.not_awaited cfg (observed ++ outstanding).
Proof.
  intros HQ Hreach Hlen. rewrite length_app in Hlen.
  destruct (loop_early_success cfg.(Leader.WRITE_QUORUM)
              (Z.of_nat (length cfg.(Leader.FOLLOWERS))) observed 0 0 outstanding)
    as [skipped Hloop]; [lia | lia | lia |].
  unfold Leader.replicate_to_followers, Leader.not_awaited, Leader.quorum_wait.
  rewrite Hloop. split; [reflexivity | by exists skipped].
Qed.

(** Five followers, quorum three: a failure and three successes decide
    while the fifth attempt is outstanding. *)
Lemma early_success_short_circuit_witness :
  let completed :=
    [Leader.Returned true; Leader.Returned false; Leader.Returned true;
     Leader.Returned true] ++ [Leader.Raised] in
  Leader.replicate_to_followers Leader.default_config completed = true
  ∧ [Leader.Raised] `suffix_of` Leader.not_awaited Leader.default_config completed.
Proof.
  apply (early_success_short_circuit Leader.default_config
           [Leader.Returned true; Leader.Returned false; Leader.Returned true;
            Leader.Returned true] [Leader.Raised]).
  - vm_compute. discriminate.
  - vm_compute. discriminate.
  - reflexivity.
Defined.

(** X10. [replicate_to_followers] never answers on less than it needs.  The
    results it took before returning, a prefix of the completion order,
    justify the answer by themselves: [True] with [WRITE_QUORUM]
    successes among them, [False] with so many failures among them that
    the followers left cannot make up the quorum.  So it takes at least
    [WRITE_QUORUM] results before answering [True] and at least
    F - [WRITE_QUORUM] + 1 before answering [False]. *)
Theorem decision_justified_by_results_taken
    (cfg : Leader.Config) (completed : list Leader.FutureResult) :
  length completed = length cfg.(Leader.FOLLOWERS) →
  let F := Z.of_nat (length cfg.(Leader.FOLLOWERS)) in
  ∃ taken,
    completed = taken ++ Leader.not_awaited cfg completed
    ∧ (if Leader.replicate_to_followers cfg completed
       then cfg.(Leader.WRITE_QUORUM) ≤ successes taken
            ∧ cfg.(Leader.WRITE_QUORUM) ≤ Z.of_nat (length taken)
       else F - failures taken < cfg.(Leader.WRITE_QUORUM)
            ∧ F - cfg.(Leader.WRITE_QUORUM) + 1 ≤ Z.of_nat (length taken)).
Proof.
  intros Hlen F.
  destruct (loop_decision_point cfg.(Leader.WRITE_QUORUM) F completed 0 0)
    as (taken & Hsplit & Hwhy); [subst F; lia|].
  exists taken. split; [exact Hsplit|].
  unfold Leader.replicate_to_followers, Leader.quorum_wait. fold F.
  pose proof (successes_nonneg taken) as Hs.
  pose proof (successes_failures taken) as Hsf.
  pose proof (failures_nonneg taken) as Hf.
  destruct (fst (Leader.as_completed_loop _ F 0 0 completed)); lia.
Qed.

(** Five followers, quorum four: [False] after two failures among the
    first three results. *)
Lemma decision_justified_by_results_taken_witness :
  let cfg := Leader.mkConfig 4 Leader.default_config.(Leader.FOLLOWERS) in
  let completed :=
    [Leader.Returned false; Leader.Returned true; Leader.Returned false;
     Leader.Returned true; Leader.Returned true] in
  ∃ taken,
    completed = taken ++ Leader.not_awaited cfg completed
    ∧ (if Leader.replicate_to_followers cfg completed
       then 4 ≤ successes taken ∧ 4 ≤ Z.of_nat (length taken)
       else 5 - failures taken < 4 ∧ 5 - 4 + 1 ≤ Z.of_nat (length taken)).
Proof.
  apply (decision_justified_by_results_taken
           (Leader.mkConfig 4 Leader.default_config.(Leader.FOLLOWERS))
           [Leader.Returned false; Leader.Returned true; Leader.Returned false;
            Leader.Returned true; Leader.Returned true]).
  reflexivity.
Defined.

(** ** A write and the followers it reaches *)

(** Followers 1, 2 and 4 answer, 3 and 5 do not; the attempts complete
    in the order 5, 4, 3, 2, 1. *)
Lemma cluster_write_success_iff_witness :
  let up := Leader.mkNode true ∅ in
  let down := Leader.mkNode false ∅ in
  field "status"
    (body (snd (Cluster.write Leader.default_config
                  (Cluster.mkCluster Leader.initial [up; up; down; up; down])
                  (Leader.mkWrite (Some "k") (Some "v")) [4; 3; 2; 1; 0]%nat)))
  = Some (JStr "success").
Proof.
  intros up down.
  apply (cluster_write_success_iff Leader.default_config
           (Cluster.mkCluster Leader.initial [up; up; down; up; down])
           "k" "v" [4; 3; 2; 1; 0]%nat).
  - reflexivity.
  - cbn. symmetry. apply (Permutation_rev [0; 1; 2; 3; 4]%nat).
  - vm_compute. discriminate.
Defined.

Section InSync.
Import Leader Cluster.

Lemma fan_out_lookup followers key val ver i node :
  followers !! i = Some node →
  (map fst (fan_out followers key val ver)) !! i
  = Some (fst (replicate_to_follower node key val ver)).
Proof.
  intros Hi. unfold fan_out. rewrite map_map.
  change (map ?f followers) with (f <$> followers).
  by rewrite list_lookup_fmap, Hi.
Qed.

Lemma covered_store_is_older st key :
  counter_covers_store st →
  Follower.newer st.(data_store) key (st.(version_counter) + 1).
Proof.
  intros Hcov. unfold Follower.newer.
  destruct (st.(data_store) !! key) as [e|] eqn:He; [right | by left].
  exists e. split; [done|]. apply Hcov in He. lia.
Qed.

End InSync.

(** X13. A follower that answers and holds exactly the leader's store holds
    exactly the leader's store again after a write, accepted or
    rejected, whatever the other followers do, in whatever order the
    attempts complete and whether or not the quorum is met.  The leader's
    counter has to cover its store, as it does on a leader that started
    empty. *)
Theorem cluster_write_keeps_in_sync
    (cfg : Leader.Config) (c : Cluster.Cluster) (data : Leader.WriteRequest)
    (arrival : list nat) (i : nat) (node : Leader.FollowerNode) :
  Leader.counter_covers_store c.(Cluster.leader) →
  c.(Cluster.followers) !! i = Some node →
  node.(Leader.reachable) = true →
  node.(Leader.node_store) = c.(Cluster.leader).(Leader.data_store) →
  let c' := fst (Cluster.write cfg c data arrival) in
  Leader.counter_covers_store c'.(Cluster.leader)
  ∧ ∃ node',
      c'.(Cluster.followers) !! i = Some node'
      ∧ node'.(Leader.reachable) = true
      ∧ node'.(Leader.node_store) = c'.(Cluster.leader).(Leader.data_store).
Proof.
  intros Hcov Hi Hup Hsync c'. subst c'.
  destruct data as [[k|] [x|]];
    try (cbn; split; [exact Hcov | by exists node]).
  unfold Cluster.write.
  cbn [Leader.req_key Leader.req_value Leader.with_version_lock Leader.with_store_lock
       fst snd Cluster.leader Cluster.followers Leader.data_store Leader.version_counter].
  split.
  - intros key e. unfold Leader.with_store_lock.
    cbn [Leader.data_store Leader.version_counter].
    destruct (decide (k = key)) as [-> | Hne].
    + rewrite lookup_insert_eq. intros [= <-]. cbn. lia.
    + rewrite lookup_insert_ne by done. intros H%Hcov. lia.
  - rewrite (fan_out_lookup _ _ _ _ _ _ Hi). eexists. split; [done|].
    destruct node as [r st]. cbn in Hup, Hsync. subst r st.
    unfold Leader.replicate_to_follower, Leader.post.
    cbn [Leader.reachable Leader.node_store].
    rewrite (replicate_newer _ _ _ _ (covered_store_is_older _ k Hcov)). done.
Qed.

(** A cluster whose second follower is down: the first follower stays in
    step with the leader through a write that misses the quorum. *)
Lemma cluster_write_keeps_in_sync_witness :
  let up := Leader.mkNode true ∅ in
  let down := Leader.mkNode false ∅ in
  let c' :=
    fst (Cluster.write Leader.default_config
           (Cluster.mkCluster Leader.initial [up; down; down; down; down])
           (Leader.mkWrite (Some "k") (Some "v")) [0; 1; 2; 3; 4]%nat) in
  Leader.counter_covers_store c'.(Cluster.leader)
  ∧ ∃ node',
      c'.(Cluster.followers) !! 0%nat = Some node'
      ∧ node'.(Leader.reachable) = true
      ∧ node'.(Leader.node_store) = c'.(Cluster.leader).(Leader.data_store).
Proof.
  intros up down.
  apply (cluster_write_keeps_in_sync Leader.default_config
           (Cluster.mkCluster Leader.initial [up; down; down; down; down])
           (Leader.mkWrite (Some "k") (Some "v")) [0; 1; 2; 3; 4]%nat 0%nat up).
  - intros key e H. cbn in H. by rewrite lookup_empty in H.
  - reflexivity.
  - reflexivity.
  - reflexivity.
Defined.

(** ** The consistency report of the performance analysis *)

Section Report.
Import Analysis.

Implicit Types (leader_data follower_data : gmap string Entry).

Lemma compare_split leader_data follower_data :
  (size (dom leader_data ∩ dom follower_data : gset string)
   + size (dom leader_data ∖ dom follower_data : gset string) = size leader_data)%nat
  ∧ (size (dom leader_data ∩ dom follower_data : gset string)
     + size (dom follower_data ∖ dom leader_data : gset string) = size follower_data)%nat.
Proof.
  assert (Hparts : ∀ X Y : gset string, (size (X ∩ Y) + size (X ∖ Y) = size X)%nat).
  { intros X Y. rewrite <- size_union.
    - f_equal. apply set_eq. intros k.
      rewrite elem_of_union, elem_of_intersection, elem_of_difference.
      destruct (decide (k ∈ Y)); tauto.
    - intros k [_ Hin]%elem_of_intersection [_ Hout]%elem_of_difference. done. }
  split.
  - rewrite <- (size_dom (D := gset string) leader_data). apply Hparts.
  - rewrite <- (size_dom (D := gset string) follower_data).
    rewrite (comm_L (∩) (dom leader_data)). apply Hparts.
Qed.

Lemma compare_clean leader_data i follower_data :
  (missing_keys (compare leader_data i follower_data) = 0
   ∧ extra_keys (compare leader_data i follower_data) = 0
   ∧ value_mismatches (compare leader_data i follower_data) = 0)%nat
  ↔ follower_data = leader_data.
Proof.
  unfold compare. cbn [missing_keys extra_keys value_mismatches]. split.
  - intros (Hmiss & Hextra & Hdiff).
    apply size_empty_iff, leibniz_equiv in Hmiss, Hextra.
    apply length_zero_iff_nil in Hdiff.
    apply map_eq. intros k.
    destruct (decide (k ∈ dom leader_data)) as [Hin | Hout].
    + assert (Hf : k ∈ dom follower_data) by set_solver.
      destruct (decide (leader_data !! k = follower_data !! k)) as [Heq | Hne]; [done|].
      assert (k ∈ filter (λ key : string, leader_data !! key ≠ follower_data !! key)
                    (elements (dom leader_data ∩ dom follower_data : gset string))) as Hk.
      { apply list_elem_of_filter. split; [done|]. apply elem_of_elements. set_solver. }
      rewrite Hdiff in Hk. by apply elem_of_nil in Hk.
    + assert (Hf : k ∉ dom follower_data) by set_solver.
      apply not_elem_of_dom in Hout, Hf. congruence.
  - intros ->. repeat split.
    + apply size_empty_iff, difference_diag.
    + apply size_empty_iff, difference_diag.
    + apply length_zero_iff_nil.
      destruct (filter _ _) as [|k rest] eqn:Hfilter; [done|].
      assert (Hk : k ∈ k :: rest) by apply list_elem_of_here.
      rewrite <- Hfilter in Hk. apply list_elem_of_filter in Hk as [Hk _]. done.
Qed.

Lemma compare_mismatches_bound leader_data i follower_data :
  (value_mismatches (compare leader_data i follower_data)
   ≤ common_keys (compare leader_data i follower_data))%nat.
Proof. unfold compare. cbn [value_mismatches common_keys]. apply length_filter. Qed.

End Report.

(** X14. The report of [check_data_consistency] has one element per follower,
    numbered from 1 in the order of [FOLLOWER_URLS].  In each element the
    common and the missing keys add up to the leader's keys, the common
    and the extra keys add up to the follower's keys, which is
    [total_keys], and the mismatches are at most the common keys. *)
Theorem check_data_consistency_counts
    (leader_data : gmap string Entry) (followers_data : list (gmap string Entry)) :
  length (Analysis.check_data_consistency leader_data followers_data)
  = length followers_data
  ∧ ∀ i r,
      Analysis.check_data_consistency leader_data followers_data !! i = Some r →
      ∃ follower_data,
        followers_data !! i = Some follower_data
        ∧ r.(Analysis.follower_id) = S i
        ∧ r.(Analysis.total_keys) = size follower_data
        ∧ (r.(Analysis.common_keys) + r.(Analysis.missing_keys) = size leader_data)%nat
        ∧ (r.(Analysis.common_keys) + r.(Analysis.extra_keys) = size follower_data)%nat
        ∧ (r.(Analysis.value_mismatches) ≤ r.(Analysis.common_keys))%nat.
Proof.
  unfold Analysis.check_data_consistency. split; [apply length_imap|].
  intros i r. rewrite list_lookup_imap.
  destruct (followers_data !! i) as [follower_data|]; [|discriminate].
  intros [= <-]. exists follower_data.
  destruct (compare_split leader_data follower_data) as [H1 H2].
  repeat split; try done.
  - cbn. lia.
  - apply compare_mismatches_bound.
Qed.

(** X15. The report shows no missing key, no extra key and no mismatch for
    every follower exactly when the data of every follower equals the
    data of the leader. *)
Theorem check_data_consistency_clean_iff
    (leader_data : gmap string Entry) (followers_data : list (gmap string Entry)) :
  Forall (λ r, r.(Analysis.missing_keys) = 0%nat ∧ r.(Analysis.extra_keys) = 0%nat
               ∧ r.(Analysis.value_mismatches) = 0%nat)
    (Analysis.check_data_consistency leader_data followers_data)
  ↔ Forall (λ follower_data, follower_data = leader_data) followers_data.
Proof.
  unfold Analysis.check_data_consistency. rewrite !Forall_lookup. split.
  - intros H i follower_data Hi. apply (compare_clean leader_data i).
    apply (H i). by rewrite list_lookup_imap, Hi.
  - intros H i r. rewrite list_lookup_imap.
    destruct (followers_data !! i) as [follower_data|] eqn:Hi; [|discriminate].
    intros [= <-]. apply compare_clean. by eapply H.
Qed.

(** ** The consistency check of the race test *)

Section RaceCheck.
Import RaceTest.

Lemma read_found (st : gmap string Entry) key e :
  st !! key = Some e →
  Follower.read st (Some key)
  = mkResponse [("key", JStr key); ("value", JStr e.(value));
                ("version", JInt e.(version))]%string 200.
Proof. intros H. unfold Follower.read. by rewrite H. Qed.

Lemma read_missing (st : gmap string Entry) key :
  st !! key = None →
  Follower.read st (Some key) = mkResponse [("error", JStr "key not found")]%string 404.
Proof. intros H. unfold Follower.read. by rewrite H. Qed.

Lemma is_consistent_reads key e e' :
  is_consistent
    [("key", JStr key); ("value", JStr e.(value)); ("version", JInt e.(version))]%string
    [("key", JStr key); ("value", JStr e'.(value)); ("version", JInt e'.(version))]%string
  = Some (bool_decide (e' = e)).
Proof.
  unfold is_consistent. cbn [field String.eqb Ascii.eqb Bool.eqb mbind option_bind].
  destruct e as [v n], e' as [v' n']. cbn [value version].
  destruct (decide (JStr v' = JStr v)) as [[= ->] | Hv].
  - destruct (decide (n' = n)) as [-> | Hn].
    + by rewrite !bool_decide_eq_true_2.
    + by rewrite !bool_decide_eq_false_2 by congruence.
  - by rewrite bool_decide_eq_false_2 by congruence.
Qed.

Lemma check_followers_reads key e (stores : list (gmap string Entry)) : ∀ acc,
  check_followers
    [("key", JStr key); ("value", JStr e.(value)); ("version", JInt e.(version))]%string
    (map (λ s, Follower.read s (Some key)) stores) acc
  = Some (acc && forallb (λ s, bool_decide (s !! key = Some e)) stores).
Proof.
  induction stores as [|s stores IH]; intros acc.
  - cbn. by rewrite andb_true_r.
  - cbn [map forallb]. destruct (s !! key) as [e'|] eqn:Hs.
    + rewrite (read_found _ _ _ Hs). cbn [check_followers status_code body].
      change (200 =? 200) with true. cbv iota.
      rewrite is_consistent_reads.
      cbn [field String.eqb Ascii.eqb Bool.eqb].
      destruct (decide (e' = e)) as [-> | Hne].
      * rewrite !bool_decide_eq_true_2 by done. apply IH.
      * rewrite !bool_decide_eq_false_2 by congruence.
        rewrite IH. by rewrite andb_false_r.
    + rewrite (read_missing _ _ Hs). cbn [check_followers status_code].
      change (404 =? 200) with false. cbv iota.
      rewrite bool_decide_eq_false_2 by discriminate.
      rewrite IH. by rewrite andb_false_r.
Qed.

End RaceCheck.

(** X16. Run on what the [/read] handlers of the leader and of the followers
    answer for one key, the consistency check of the race test does not
    raise, and it returns [True] exactly when the leader stores the key
    and every follower stores it with the same value and version. *)
Theorem race_check_passes_iff
    (st : Leader.State) (stores : list (gmap string Entry)) (key : string) :
  ∃ verdict,
    RaceTest.consistency_check (Leader.read st (Some key))
      (map (λ s, Follower.read s (Some key)) stores)
    = Some verdict
    ∧ (verdict = true ↔
       ∃ e, st.(Leader.data_store) !! key = Some e
            ∧ Forall (λ s : gmap string Entry, s !! key = Some e) stores).
Proof.
  unfold RaceTest.consistency_check, Leader.read.
  destruct (st.(Leader.data_store) !! key) as [e|] eqn:Hl.
  - rewrite (read_found _ _ _ Hl). cbn [status_code body].
    change (200 =? 200) with true. cbv iota.
    cbn [field String.eqb Ascii.eqb Bool.eqb].
    rewrite check_followers_reads. eexists. split; [reflexivity|].
    cbn [andb]. rewrite forallb_forall. split.
    + intros H. exists e. split; [done|]. apply Forall_forall.
      intros s Hs%list_elem_of_In. apply H in Hs. by apply bool_decide_eq_true_1 in Hs.
    + intros (e' & [= <-] & H) s Hs%list_elem_of_In.
      apply bool_decide_eq_true_2. by eapply Forall_forall in H.
  - rewrite (read_missing _ _ Hl). cbn [status_code].
    change (404 =? 200) with false. cbv iota.
    exists false. split; [done|]. split; [discriminate|]. by intros (e & ? & _).
Qed.

(** X17. After writes served one after the other on a leader that starts
    empty, if every follower started empty and has received every posted
    replication body, in its own order and with its own repetitions, the
    consistency check of the race test returns [True] for every key that
    was written. *)
Theorem race_check_passes_after_catch_up
    (cfg : Leader.Config)
    (requests : list (Leader.WriteRequest * list Leader.FutureResult))
    (received : list (list Follower.ReplicateRequest)) (key : string) :
  Forall (λ deliveries,
            ∀ r, r ∈ deliveries
                 ↔ r ∈ snd (Leader.serve_posting cfg Leader.initial requests))
    received →
  is_Some ((fst (Leader.serve_posting cfg Leader.initial requests)).(Leader.data_store)
           !! key) →
  RaceTest.consistency_check
    (Leader.read (fst (Leader.serve_posting cfg Leader.initial requests)) (Some key))
    (map (λ deliveries, Follower.read (Follower.deliver ∅ deliveries) (Some key)) received)
  = Some true.
Proof.
  intros Hall [e He].
  set (final := fst (Leader.serve_posting cfg Leader.initial requests)) in *.
  assert (Hstores : map (λ deliveries, Follower.read (Follower.deliver ∅ deliveries) (Some key))
                      received
                    = map (λ s, Follower.read s (Some key))
                        (map (λ _, final.(Leader.data_store)) received)).
  { rewrite map_map. apply map_ext_Forall. eapply Forall_impl; [exact Hall|].
    intros deliveries Hsame. cbn beta.
    by rewrite (serve_catch_up cfg requests deliveries Hsame). }
  rewrite Hstores. unfold RaceTest.consistency_check, Leader.read.
  rewrite (read_found _ _ _ He). cbn [status_code body].
  change (200 =? 200) with true. cbv iota.
  cbn [field String.eqb Ascii.eqb Bool.eqb].
  rewrite check_followers_reads. f_equal. cbn [andb].
  apply forallb_forall. intros s Hs.
  apply in_map_iff in Hs as (_ & <- & _). by apply bool_decide_eq_true_2.
Qed.

(** Two writes to one key; one follower received the bodies in order,
    the other backwards and the first one twice. *)
Lemma race_check_passes_after_catch_up_witness :
  let requests :=
    [(Leader.mkWrite (Some "k") (Some "a"), repeat (Leader.Returned true) 5);
     (Leader.mkWrite (Some "k") (Some "b"), repeat (Leader.Returned true) 5)]%string in
  let r1 := Follower.mkReplicate (Some "k"%string) (Some "a"%string) (Some 1) in
  let r2 := Follower.mkReplicate (Some "k"%string) (Some "b"%string) (Some 2) in
  RaceTest.consistency_check
    (Leader.read (fst (Leader.serve_posting Leader.default_config Leader.initial requests))
       (Some "k"%string))
    (map (λ deliveries, Follower.read (Follower.deliver ∅ deliveries) (Some "k"%string))
       [[r1; r2]; [r2; r1; r1]])
  = Some true.
Proof.
  intros requests r1 r2.
  apply (race_check_passes_after_catch_up Leader.default_config requests
           [[r1; r2]; [r2; r1; r1]] "k").
  - change (snd (Leader.serve_posting Leader.default_config Leader.initial requests))
      with [r1; r2].
    apply Forall_forall. intros deliveries Hd.
    rewrite !elem_of_cons, elem_of_nil in Hd.
    destruct Hd as [-> | [-> | []]]; intros r; rewrite !elem_of_cons, !elem_of_nil; tauto.
  - by eexists.
Defined.

(** ** What the example client sees *)

Section ExampleClient.
Import Example.


End ExampleClient.


(** X19. [write_data] returns [True] for every write the leader answers whose
    key and value are present, whatever the followers did and whether or
    not the quorum was met, and [False] when key or value is missing. *)
Theorem write_data_ignores_quorum
    (cfg : Leader.Config) (st : Leader.State) (data : Leader.WriteRequest)
    (completed : list Leader.FutureResult) :
  Example.write_data (Answer (snd (Leader.write cfg st data completed))) = true
  ↔ is_Some data.(Leader.req_key) ∧ is_Some data.(Leader.req_value).
Proof.
  destruct data as [[k|] [x|]].
  - rewrite write_accepted. cbn [snd Example.write_data].
    rewrite (proj2 (write_response_version _ _ _ _)). split; [|done].
    intros _. split; by eexists.
  - cbn. split; [discriminate | intros [_ [? [=]]]].
  - cbn. split; [discriminate | intros [[? [=]] _]].
  - cbn. split; [discriminate | intros [[? [=]] _]].
Qed.

(** A write with five followers of which none acknowledges. *)
Lemma write_data_ignores_quorum_witness :
  Example.write_data
    (Answer (snd (Leader.write Leader.default_config Leader.initial
                    (Leader.mkWrite (Some "k") (Some "v"))
                    (repeat (Leader.Returned false) 5))))
  = true.
Proof.
  apply (write_data_ignores_quorum Leader.default_config Leader.initial
           (Leader.mkWrite (Some "k") (Some "v")) (repeat (Leader.Returned false) 5)).
  split; by eexists.
Defined.

(** X20. What [read_data] and [get_all_data] return is what the node stores:
    [read_data] returns the stored value of a key, [None] for a key that
    is not stored and the error string when the request fails;
    [get_all_data] returns the node's whole store, and the empty
    dictionary when the request fails.  Right after a write the leader
    answered, [read_data] on the leader returns the written value. *)
Theorem client_reads_what_is_stored :
  (∀ (st : gmap string Entry) key,
     Example.read_data (Answer (Follower.read st (Some key)))
     = match st !! key with
       | Some e => Example.Value (JStr e.(value))
       | None => Example.NoValue
       end)
  ∧ Example.read_data Failure = Example.ErrorText
  ∧ (∀ st : gmap string Entry,
     Example.get_all_data (Answer (Follower.get_all_data st)) = st)
  ∧ (∀ st, Example.get_all_data (Answer (Leader.get_all_data st)) = st.(Leader.data_store))
  ∧ Example.get_all_data Failure = ∅
  ∧ (∀ cfg st key val completed,
     Example.read_data
       (Answer (Leader.read
                  (fst (Leader.write cfg st (Leader.mkWrite (Some key) (Some val)) completed))
                  (Some key)))
     = Example.Value (JStr val)).
Proof.
  repeat split.
  - intros st key. unfold Follower.read. by destruct (st !! key).
  - intros cfg st key val completed. rewrite write_accepted.
    unfold Leader.read, Follower.read. cbn [fst Leader.data_store].
    by rewrite lookup_insert_eq.
Qed.

(** ** What the leader stores under interleaving *)

Section StoredValues.
Import Leader Threads.

Variable requests : list (WriteRequest * list FutureResult).

Lemma step_tied cfg p i : tied_to requests p → tied_to requests (step cfg p i).
Proof.
  intros [Hh Hs]. unfold step.
  destruct (handlers p !! i) as [h|] eqn:Hi; [|by split].
  destruct (Hh i h Hi) as (data & completed & Hreq & Hserves).
  assert (Hins : ∀ st h', serves h' data →
            (∀ key e, st.(data_store) !! key = Some e →
               ∃ j d c, requests !! j = Some (d, c)
                        ∧ d.(req_key) = Some key ∧ d.(req_value) = Some e.(value)) →
            tied_to requests (mkProcess st (<[i := h']> p.(handlers)))).
  { intros st h' Hh' Hst. split; [|exact Hst]. cbn [handlers]. intros j hj.
    destruct (decide (i = j)) as [<- | Hne].
    - rewrite list_lookup_insert_eq by (by eapply lookup_lt_Some).
      intros [= <-]. by exists data, completed.
    - rewrite list_lookup_insert_ne by done. apply Hh. }
  destruct h as [[[k|] [x|]] c0|k x v c0|k x v c0|response];
    cbn [handler_step req_key req_value with_version_lock with_store_lock];
    cbn [serves] in Hserves.
  - apply Hins; [subst data; by split | exact Hs].
  - by apply Hins.
  - by apply Hins.
  - by apply Hins.
  - apply Hins; [exact Hserves|]. unfold with_store_lock. cbn [data_store].
    intros key e. destruct (decide (k = key)) as [-> | Hne].
    + rewrite lookup_insert_eq. intros [= <-]. cbn [value].
      exists i, data, completed. by destruct Hserves.
    + rewrite lookup_insert_ne by done. apply Hs.
  - by apply Hins.
  - by apply Hins.
Qed.

Lemma run_tied cfg schedule : ∀ p, tied_to requests p → tied_to requests (run cfg p schedule).
Proof.
  induction schedule as [|i rest IH]; intros p Hp; [done|].
  change (run cfg p (i :: rest)) with (run cfg (step cfg p i) rest).
  by apply IH, step_tied.
Qed.

End StoredValues.

(** X8. However the handlers of concurrent writes are scheduled on a leader
    that starts empty, whatever the leader stores for a key is a value
    that one of the write requests carried for that very key. *)
Theorem leader_stores_only_requested_values
    (cfg : Leader.Config)
    (requests : list (Leader.WriteRequest * list Leader.FutureResult))
    (schedule : list nat) (key : string) (e : Entry) :
  (Threads.shared
     (Threads.run cfg
        (Threads.mkProcess Leader.initial
           (map (λ r, Threads.AtEntry (fst r) (snd r)) requests))
        schedule)).(Leader.data_store) !! key = Some e →
  ∃ i data completed,
    requests !! i = Some (data, completed)
    ∧ data.(Leader.req_key) = Some key
    ∧ data.(Leader.req_value) = Some e.(value).
Proof.
  apply (run_tied requests cfg schedule). split.
  - cbn [Threads.handlers]. intros i h.
    change (map ?f requests) with (f <$> requests). rewrite list_lookup_fmap.
    destruct (requests !! i) as [[data completed]|]; [|discriminate].
    intros [= <-]. by exists data, completed.
  - cbn. intros key' e' H. by rewrite lookup_empty in H.
Qed.

(** Two requests for one key scheduled so that the first stores last. *)
Lemma leader_stores_only_requested_values_witness :
  let requests : list (Leader.WriteRequest * list Leader.FutureResult) :=
    [(Leader.mkWrite (Some "k") (Some "a"), []);
     (Leader.mkWrite (Some "k") (Some "b"), [])]%string in
  ∃ i data completed,
    requests !! i = Some (data, completed)
    ∧ data.(Leader.req_key) = Some "k"%string
    ∧ data.(Leader.req_value) = Some (value (mkEntry "a" 1)).
Proof.
  intros requests.
  apply (leader_stores_only_requested_values Leader.default_config requests
           [0; 1; 1; 0]%nat "k" (mkEntry "a" 1)).
  vm_compute. reflexivity.
Defined.

(** ** A smaller quorum is easier to meet *)

(** X11. For the same results of the same followers, a write that meets the
    quorum meets every smaller quorum as well. *)
Theorem smaller_quorum_still_met
    (quorum quorum' : Z) (FOLLOWERS : list string)
    (completed : list Leader.FutureResult) :
  length completed = length FOLLOWERS →
  quorum' ≤ quorum →
  Leader.replicate_to_followers (Leader.mkConfig quorum FOLLOWERS) completed = true →
  Leader.replicate_to_followers (Leader.mkConfig quorum' FOLLOWERS) completed = true.
Proof.
  intros Hlen Hle. rewrite !quorum_decision by done. cbn [Leader.WRITE_QUORUM].
  intros H%Z.leb_le. apply Z.leb_le. lia.
Qed.

(** Three successes among five meet a quorum of three, hence of two. *)
Lemma smaller_quorum_still_met_witness :
  Leader.replicate_to_followers
    (Leader.mkConfig 2 Leader.default_config.(Leader.FOLLOWERS))
    [Leader.Returned false; Leader.Returned true; Leader.Returned true;
     Leader.Returned false; Leader.Returned true]
  = true.
Proof.
  apply (smaller_quorum_still_met 3 2 Leader.default_config.(Leader.FOLLOWERS)
           [Leader.Returned false; Leader.Returned true; Leader.Returned true;
            Leader.Returned false; Leader.Returned true]).
  - reflexivity.
  - vm_compute. discriminate.
  - reflexivity.
Defined.

(** ** The posted body is the one every follower is sent *)

(** The body that [posts] names is the body each replication attempt of
    the write posts to its follower. *)
Lemma cluster_write_posts cfg c data arrival r :
  Leader.posts c.(Cluster.leader) data = Some r →
  (fst (Cluster.write cfg c data arrival)).(Cluster.followers)
  = map (λ node, fst (Leader.post node r)) c.(Cluster.followers).
Proof.
  destruct data as [[k|] [x|]]; cbn [Leader.posts Leader.req_key Leader.req_value];
    try discriminate.
  intros [= <-]. unfold Cluster.write, Cluster.fan_out.
  cbn [Leader.req_key Leader.req_value Leader.with_version_lock fst snd Cluster.followers].
  rewrite map_map. apply map_ext. intros node.
  unfold Leader.replicate_to_follower. by destruct (Leader.post node _).
Qed.
